(** * Phrase reconciliation loop of [app_v3_mvp.py]

    A shallow embedding of [listen_to_wordly]: the message loop that consumes
    the decoded feed, buffers the currently open phrase, remembers finalized
    phrase ids and the last speaker, and prints in-place updates and
    newline-terminated commits.

    Scope of the model.
    - The transport is abstracted to the list of messages the websocket
      delivers, in order.  A message either fails [json.loads], or decodes to
      something that is not a JSON object, or decodes to a [dict].
    - The values stored under the keys the loop reads are the JSON scalars
      [None], booleans, integers and strings.  Floating-point numbers and
      nested arrays/objects in field position are outside the model.
    - Python strings are [string]s; the characters that matter to the loop
      ('>', ':', ' ') are ASCII.
    - The pattern of the two [re.sub] calls is run by a small backtracking
      matcher for the constructs it uses; a direct computation of the same
      result is proved equal to it.
    - [print] calls are recorded as effects; every effect that belongs to a
      phrase is tagged with the phrase id the loop variable held when the line
      was printed, so that properties "bearing that id" can be stated.
    - [logging] calls are recorded by level only. *)

From stdpp Require Import gmap strings list pretty.
From Stdlib Require Import ZArith String Ascii Lia.

Open Scope string_scope.
Open Scope Z_scope.
Open Scope list_scope.

(** ** Python values *)

Inductive pyval : Type :=
| PNone
| PBool (b : bool)
| PInt (n : Z)
| PStr (s : string).

(** Python's [==] on these values: [True == 1], [False == 0], and values of
    unrelated types are unequal. *)
Definition py_eq (a b : pyval) : bool :=
  match a, b with
  | PNone, PNone => true
  | PBool x, PBool y => Bool.eqb x y
  | PBool x, PInt y => Z.eqb (Z.b2z x) y
  | PInt x, PBool y => Z.eqb x (Z.b2z y)
  | PInt x, PInt y => Z.eqb x y
  | PStr x, PStr y => String.eqb x y
  | _, _ => false
  end.

(** Python's [!=]. *)
Definition py_ne (a b : pyval) : bool := negb (py_eq a b).

(** [x is not None]. *)
Definition is_not_None (a : pyval) : bool :=
  match a with PNone => false | _ => true end.

(** Truth value of an object in a boolean context. *)
Definition truthy (a : pyval) : bool :=
  match a with
  | PNone => false
  | PBool b => b
  | PInt n => negb (Z.eqb n 0)
  | PStr s => negb (String.eqb s "")
  end.

(** [str(x)], as used by the f-string [f"{speaker_name}: "]. *)
Definition py_str (a : pyval) : string :=
  match a with
  | PNone => "None"
  | PBool true => "True"
  | PBool false => "False"
  | PInt n => pretty n
  | PStr s => s
  end.

(** [s + x] for a [str] [s]: defined only when [x] is a [str]; any other
    right operand raises [TypeError]. *)
Definition str_add (s : string) (x : pyval) : option string :=
  match x with
  | PStr t => Some (s +:+ t)
  | _ => None
  end.

Definition is_str (a : pyval) : bool :=
  match a with PStr _ => true | _ => false end.

(** Elements of [finalized_phrases].  A Python [set] identifies its members
    up to [hash] and [==]; on the values above the classes are: [None], the
    numbers (with [True] and [False] as 1 and 0) and the strings. *)
Inductive key : Type :=
| KNone
| KNum (n : Z)
| KStr (s : string).

#[global] Instance key_eq_dec : EqDecision key.
Proof. solve_decision. Defined.

#[global] Instance key_countable : Countable key.
Proof.
  refine (inj_countable'
    (fun k => match k with
              | KNone => inl tt
              | KNum n => inr (inl n)
              | KStr s => inr (inr s)
              end)
    (fun x => match x with
              | inl _ => KNone
              | inr (inl n) => KNum n
              | inr (inr s) => KStr s
              end) _).
  intros []; reflexivity.
Defined.

Definition hash_key (a : pyval) : key :=
  match a with
  | PNone => KNone
  | PBool b => KNum (Z.b2z b)
  | PInt n => KNum n
  | PStr s => KStr s
  end.

(** ** Decoded messages *)

(** [data.get(k, d)] on a decoded JSON object. *)
Definition get (data : gmap string pyval) (k : string) (d : pyval) : pyval :=
  default d (data !! k).

Inductive message : Type :=
| NonJSON                                 (* json.loads raises JSONDecodeError *)
| NonObject                               (* valid JSON, but not an object *)
| Obj (data : gmap string pyval).         (* a JSON object *)

(** ** Configuration constants *)

Definition ATTRIBUTION_LINE : string := "<Captioning by Wordly.ai>".
Definition LOG_RAW_PACKETS : bool := true.

(** The two "speaker indication flags" are module-level constants meant to
    be edited; the model keeps them as a record, with the shipped values
    below. *)
Record flags : Type := {
  SHOW_SPEAKER_NAMES : bool;
  SHOW_SPEAKER_CHANGES : bool
}.

Definition shipped_flags : flags :=
  {| SHOW_SPEAKER_NAMES := false; SHOW_SPEAKER_CHANGES := true |}.

(** ** Effects *)

Inductive level : Type := DEBUG | INFO | WARNING | ERROR.

(** - [Attribution]: [print(ATTRIBUTION_LINE)].
    - [Update id text]: [print(f"\r{text}", end="")], the in-place rewrite of
      the current line, for the phrase [id].
    - [Commit id text]: a newline-terminated print of [text]: either
      [print(current_phrase_text)] when the open phrase [id] is rolled over,
      or [print(f"\r{current_phrase_text}")] when [id] is final.
    - [Log l]: a [logging] call at level [l]. *)
Inductive effect : Type :=
| Attribution
| Update (id : pyval) (text : string)
| Commit (id : pyval) (text : string)
| Log (l : level).

(** ** Loop state: the local variables of [listen_to_wordly] *)

Record state : Type := {
  current_phrase_id : pyval;
  current_phrase_text : string;
  finalized_phrases : gset key;
  last_speaker_id : pyval;
  last_speaker_tag : pyval;
  connection_successful : bool
}.

Definition initial_state : state :=
  {| current_phrase_id := PNone;
     current_phrase_text := "";
     finalized_phrases := ∅;
     last_speaker_id := PNone;
     last_speaker_tag := PNone;
     connection_successful := false |}.

(** ** The regular expression [^(>> )?([^:]+: )?] *)

(** The fragment of Python's [re] syntax the pattern uses: literal text, a
    repeated negated character class [[^c]+], an optional group [(r)?] and
    concatenation.  Both quantifiers are greedy. *)
Inductive regex : Type :=
| Lit (l : string)
| NotCharPlus (c : ascii)
| Opt (r : regex)
| Cat (r1 r2 : regex).

(** [drop_literal l s]: what follows [l] at the front of [s], if [s] starts
    with [l]. *)
Fixpoint drop_literal (l s : string) : option string :=
  match l, s with
  | EmptyString, _ => Some s
  | String a l', String b s' => if Ascii.eqb a b then drop_literal l' s' else None
  | String _ _, EmptyString => None
  end.

(** [[^c]+] after its first character: take more characters first, and give
    one back each time what follows does not match. *)
Fixpoint not_char_more (c : ascii) (s : string) (k : string -> option string)
  : option string :=
  match s with
  | EmptyString => k s
  | String a s' =>
      if Ascii.eqb a c then k s
      else match not_char_more c s' k with
           | Some rest => Some rest
           | None => k s
           end
  end.

(** Backtracking matcher, as [re] runs it: [rmatch r s k] matches [r] at the
    front of [s] and hands what is left to the rest of the pattern [k]; the
    first way to match that lets [k] succeed wins, the greedy one being tried
    first. *)
Fixpoint rmatch (r : regex) (s : string) (k : string -> option string)
  : option string :=
  match r with
  | Lit l =>
      match drop_literal l s with
      | Some rest => k rest
      | None => None
      end
  | NotCharPlus c =>
      match s with
      | EmptyString => None
      | String a s' => if Ascii.eqb a c then None else not_char_more c s' k
      end
  | Opt r' =>
      match rmatch r' s k with
      | Some rest => Some rest
      | None => k s
      end
  | Cat r1 r2 => rmatch r1 s (fun s' => rmatch r2 s' k)
  end.

(** The pattern of lines 170 and 181, without its anchor. *)
Definition prefix_pattern : regex :=
  Cat (Opt (Lit ">> ")) (Opt (Cat (NotCharPlus ":") (Lit ": "))).

(** [re.sub(r"^(>> )?([^:]+: )?", "", s)]: the pattern is anchored at the
    start of the string, so its only match is the one at position 0, and the
    result is [s] without the matched text. *)
Definition re_sub_prefix (s : string) : string :=
  match rmatch prefix_pattern s Some with
  | Some rest => rest
  | None => s
  end.

(** The same result, computed directly.  Longest run of characters other
    than ':' at the front of [s], and what follows it: *)
Fixpoint span_non_colon (s : string) : string * string :=
  match s with
  | EmptyString => (EmptyString, EmptyString)
  | String c r =>
      if Ascii.eqb c ":" then (EmptyString, s)
      else let (run, rest) := span_non_colon r in (String c run, rest)
  end.

(** The group [(>> )?] takes [">> "] whenever the text starts with it. *)
Definition strip_marker_group (s : string) : string :=
  match drop_literal ">> " s with
  | Some r => r
  | None => s
  end.

(** The group [([^:]+: )?] matches exactly when a non-empty colon-free run
    is followed by [": "]. *)
Definition strip_name_group (s : string) : string :=
  match span_non_colon s with
  | (String _ _, rest) =>
      match drop_literal ": " rest with
      | Some r => r
      | None => s
      end
  | _ => s
  end.

(** Lines 170-171 and 181-182:
    [existing_prefix_len = len(s) - len(re.sub(..., "", s))] and
    [existing_prefix = s[:existing_prefix_len]]. *)
Definition existing_prefix_len (s : string) : nat :=
  (String.length s - String.length (re_sub_prefix s))%nat.

Definition existing_prefix (s : string) : string :=
  substring 0 (existing_prefix_len s) s.

(** ** One iteration of the message loop *)

(** Outcome of a block of statements inside the [try]: it either runs to its
    end, or raises; the assignments made before the exception persist, and so
    do the lines already printed. *)
Inductive result : Type :=
| Done (st : state) (out : list effect)
| Raised (st : state) (out : list effect).

(** How an iteration of [async for] ends: the loop goes on with the next
    message, or [break] leaves it. *)
Inductive control : Type := Next | Stop.

Record outcome : Type := {
  next_state : state;
  emitted : list effect;
  ctl : control
}.

(** The fields the loop reads from a decoded object, with the defaults of
    the [data.get] calls (lines 96, 100, 122 and 125-131). *)
Definition msg_type_of (data : gmap string pyval) : pyval := get data "type" PNone.
Definition success_of (data : gmap string pyval) : pyval :=
  get data "success" (PBool false).
Definition language_of (data : gmap string pyval) : pyval :=
  get data "translatedLanguageCode" PNone.
Definition phrase_id_of (data : gmap string pyval) : pyval := get data "phraseld" PNone.
Definition text_of (data : gmap string pyval) : pyval :=
  get data "translatedText" (PStr "").
Definition is_final_of (data : gmap string pyval) : pyval :=
  get data "isFinal" (PBool false).
Definition speaker_id_of (data : gmap string pyval) : pyval := get data "speakerld" PNone.
Definition speaker_tag_of (data : gmap string pyval) : pyval :=
  get data "speakerTag" PNone.
Definition speaker_name_of (data : gmap string pyval) : pyval := get data "name" PNone.

Definition set_text (st : state) (t : string) : state :=
  {| current_phrase_id := current_phrase_id st;
     current_phrase_text := t;
     finalized_phrases := finalized_phrases st;
     last_speaker_id := last_speaker_id st;
     last_speaker_tag := last_speaker_tag st;
     connection_successful := connection_successful st |}.

Section Loop.

Variable fl : flags.
Variable target_lang : string.

(** Lines 146-152: the prefix of a phrase that is being opened. *)
Definition speaker_changed (st : state) (speaker_id speaker_tag : pyval) : bool :=
  py_ne speaker_id (last_speaker_id st) || py_ne speaker_tag (last_speaker_tag st).

Definition marker_part : string :=
  if SHOW_SPEAKER_CHANGES fl then ">> " else "".

Definition name_part (speaker_name : pyval) : string :=
  if SHOW_SPEAKER_NAMES fl && truthy speaker_name
  then py_str speaker_name +:+ ": " else "".

Definition compute_prefix (st : state) (speaker_id speaker_tag speaker_name : pyval)
  : string :=
  if speaker_changed st speaker_id speaker_tag
  then marker_part +:+ name_part speaker_name
  else "".

(** Lines 138-164, the branch [phrase_id != current_phrase_id]. *)
Definition new_phrase_block (st : state)
    (phrase_id text speaker_id speaker_tag speaker_name : pyval) : result :=
  let rolled := is_not_None (current_phrase_id st) in
  let out1 :=
    if rolled then [Commit (current_phrase_id st) (current_phrase_text st)] else [] in
  let fin1 :=
    if rolled then {[ hash_key (current_phrase_id st) ]} ∪ finalized_phrases st
    else finalized_phrases st in
  let prefix := compute_prefix st speaker_id speaker_tag speaker_name in
  let st1 :=
    {| current_phrase_id := phrase_id;
       current_phrase_text := current_phrase_text st;
       finalized_phrases := fin1;
       last_speaker_id := speaker_id;
       last_speaker_tag := speaker_tag;
       connection_successful := connection_successful st |} in
  match str_add prefix text with
  | Some t => Done (set_text st1 t) (out1 ++ [Update phrase_id t])
  | None => Raised st1 out1
  end.

(** Lines 167-176, the branch [phrase_id == current_phrase_id]. *)
Definition update_block (st : state) (phrase_id text : pyval) : result :=
  match str_add (existing_prefix (current_phrase_text st)) text with
  | Some t => Done (set_text st t) [Update phrase_id t]
  | None => Raised st []
  end.

(** Lines 179-195, the body of [if is_final]. *)
Definition final_block (st : state) (phrase_id text : pyval) : result :=
  match str_add (existing_prefix (current_phrase_text st)) text with
  | Some t =>
      Done {| current_phrase_id := PNone;
              current_phrase_text := "";
              finalized_phrases := {[ hash_key phrase_id ]} ∪ finalized_phrases st;
              last_speaker_id := last_speaker_id st;
              last_speaker_tag := last_speaker_tag st;
              connection_successful := connection_successful st |}
           [Commit phrase_id t]
  | None => Raised st []
  end.

(** Sequencing of two blocks: the second runs only if the first did not
    raise. *)
Definition and_then (r : result) (k : state -> result) : result :=
  match r with
  | Done st out =>
      match k st with
      | Done st' out' => Done st' (out ++ out')
      | Raised st' out' => Raised st' (out ++ out')
      end
  | Raised st out => Raised st out
  end.

(** Lines 121-195: the body of [elif msg_type == "phrase" and
    connection_successful].  The two [continue] statements end the iteration
    with nothing changed. *)
Definition handle_phrase (st : state) (data : gmap string pyval) : result :=
  if py_ne (language_of data) (PStr target_lang) then
    Done st []
  else
    let phrase_id := phrase_id_of data in
    let text := text_of data in
    let is_final := is_final_of data in
    let speaker_id := speaker_id_of data in
    let speaker_tag := speaker_tag_of data in
    let speaker_name := speaker_name_of data in
    if bool_decide (hash_key phrase_id ∈ finalized_phrases st) then
      Done st []
    else
      and_then
        (if py_ne phrase_id (current_phrase_id st) then
           new_phrase_block st phrase_id text speaker_id speaker_tag speaker_name
         else if py_eq phrase_id (current_phrase_id st) then
           update_block st phrase_id text
         else Done st [])
        (fun st1 =>
           if truthy is_final then final_block st1 phrase_id text
           else Done st1 []).

(** [msg_type not in ["phrase", "status", "end", "users", "speech", "echo"]]. *)
Definition unhandled_type (msg_type : pyval) : bool :=
  negb (existsb (py_eq msg_type)
          [PStr "phrase"; PStr "status"; PStr "end"; PStr "users"; PStr "speech";
           PStr "echo"]).

(** The raw packet logger, lines 91-93. *)
Definition raw_packet_log : list effect :=
  if LOG_RAW_PACKETS then [Log DEBUG] else [].

(** Lines 87-208: one message, with the two [except] clauses. *)
Definition step (st : state) (m : message) : outcome :=
  match m with
  | NonJSON =>
      {| next_state := st; emitted := [Log WARNING]; ctl := Next |}
  | NonObject =>
      (* [data.get] raises AttributeError, caught by [except Exception] *)
      {| next_state := st; emitted := raw_packet_log ++ [Log ERROR]; ctl := Next |}
  | Obj data =>
      let msg_type := msg_type_of data in
      if py_eq msg_type (PStr "status") then
        if truthy (success_of data) then
          {| next_state :=
               {| current_phrase_id := current_phrase_id st;
                  current_phrase_text := current_phrase_text st;
                  finalized_phrases := finalized_phrases st;
                  last_speaker_id := last_speaker_id st;
                  last_speaker_tag := last_speaker_tag st;
                  connection_successful := true |};
             emitted := raw_packet_log ++ [Log INFO; Attribution];
             ctl := Next |}
        else
          {| next_state := st; emitted := raw_packet_log ++ [Log ERROR]; ctl := Stop |}
      else if py_eq msg_type (PStr "end") then
        {| next_state := st; emitted := raw_packet_log ++ [Log INFO]; ctl := Stop |}
      else if py_eq msg_type (PStr "phrase") && connection_successful st then
        match handle_phrase st data with
        | Done st' out =>
            {| next_state := st'; emitted := raw_packet_log ++ out; ctl := Next |}
        | Raised st' out =>
            {| next_state := st';
               emitted := raw_packet_log ++ out ++ [Log ERROR];
               ctl := Next |}
        end
      else if py_eq msg_type (PStr "error") then
        {| next_state := st; emitted := raw_packet_log ++ [Log WARNING]; ctl := Next |}
      else if connection_successful st && unhandled_type msg_type then
        {| next_state := st;
           emitted := raw_packet_log ++ (if negb LOG_RAW_PACKETS then [Log DEBUG] else []);
           ctl := Next |}
      else
        {| next_state := st; emitted := raw_packet_log; ctl := Next |}
  end.

(** ** The loop [async for message in websocket] *)

(** [run st msgs]: the loop started in [st] on the messages [msgs].  It ends
    when the feed is exhausted or at the first [break]; messages after a
    [break] are never looked at. *)
Fixpoint run (st : state) (msgs : list message) : outcome :=
  match msgs with
  | [] => {| next_state := st; emitted := []; ctl := Next |}
  | m :: rest =>
      let o := step st m in
      match ctl o with
      | Stop => o
      | Next =>
          let o' := run (next_state o) rest in
          {| next_state := next_state o';
             emitted := emitted o ++ emitted o';
             ctl := ctl o' |}
      end
  end.

(** The whole function: the two connection logs, the loop from the initial
    values of the local variables, and the [finally] clause. *)
Definition listen_to_wordly (msgs : list message) : list effect :=
  [Log INFO; Log INFO] ++ emitted (run initial_state msgs) ++ [Log INFO].

End Loop.

(** ** Reading the effects *)

(** The render commands among the effects: the [Update]s and [Commit]s. *)
Definition is_render (e : effect) : bool :=
  match e with
  | Update _ _ | Commit _ _ => true
  | _ => false
  end.

Definition renders (out : list effect) : list effect := List.filter is_render out.

(** The phrase an effect belongs to, as an element of the finalized set. *)
Definition bears (k : key) (e : effect) : bool :=
  match e with
  | Update id _ | Commit id _ => bool_decide (hash_key id = k)
  | _ => false
  end.

Definition is_commit (e : effect) : bool :=
  match e with Commit _ _ => true | _ => false end.

Definition is_attribution (e : effect) : bool :=
  match e with Attribution => true | _ => false end.

(** Render commands bearing [k], and commits bearing [k], in order. *)
Definition commands_for (k : key) (out : list effect) : list effect :=
  List.filter (bears k) out.

Definition commits_for (k : key) (out : list effect) : list effect :=
  List.filter (fun e => is_commit e && bears k e) out.

Definition attributions (out : list effect) : list effect :=
  List.filter is_attribution out.

(** A phrase is open when the slot holds an id: the test of line 140. *)
Definition phrase_open (st : state) : bool := is_not_None (current_phrase_id st).

(** ** Sample messages and states *)

(** A well-formed phrase event with every field present. *)
Definition phrase_data (lang id text final speaker_id speaker_tag name : pyval)
  : gmap string pyval :=
  list_to_map
    [("type", PStr "phrase"); ("translatedLanguageCode", lang); ("phraseld", id);
     ("translatedText", text); ("isFinal", final); ("speakerld", speaker_id);
     ("speakerTag", speaker_tag); ("name", name)].

Definition status_msg (success : bool) : message :=
  Obj (list_to_map [("type", PStr "status"); ("success", PBool success)]).

Definition end_msg : message := Obj (list_to_map [("type", PStr "end")]).

(** A phrase event of an anonymous speaker, as the feed sends it when it has
    no speaker information. *)
Definition phrase_msg (lang : string) (id : pyval) (text : string) (final : bool)
  : message :=
  Obj (phrase_data (PStr lang) id (PStr text) (PBool final) PNone PNone PNone).

(** A phrase event of the speaker with id [speaker]. *)
Definition spoken_msg (lang : string) (id : pyval) (text : string) (final : bool)
    (speaker : string) : message :=
  Obj (phrase_data (PStr lang) id (PStr text) (PBool final) (PStr speaker) PNone PNone).

(** A phrase event without its identifier, and one without its text. *)
Definition no_id_data : gmap string pyval :=
  list_to_map
    [("type", PStr "phrase"); ("translatedLanguageCode", PStr "en");
     ("translatedText", PStr "hi")].

Definition no_text_data : gmap string pyval :=
  list_to_map
    [("type", PStr "phrase"); ("translatedLanguageCode", PStr "en");
     ("phraseld", PInt 2)].

(** The state of a confirmed session with nothing buffered, and the state in
    which phrase 1 is open with the text "partial". *)
Definition active_idle : state :=
  {| current_phrase_id := PNone;
     current_phrase_text := "";
     finalized_phrases := ∅;
     last_speaker_id := PNone;
     last_speaker_tag := PNone;
     connection_successful := true |}.

(** The state right after a first phrase [id] was opened with display text
    [text] by the speaker [(speaker_id, speaker_tag)]. *)
Definition opened (id : pyval) (text : string) (speaker_id speaker_tag : pyval) : state :=
  {| current_phrase_id := id;
     current_phrase_text := text;
     finalized_phrases := ∅;
     last_speaker_id := speaker_id;
     last_speaker_tag := speaker_tag;
     connection_successful := true |}.

Definition open_partial : state :=
  next_state (run shipped_flags "en" initial_state
                [status_msg true; phrase_msg "en" (PInt 1) "partial" false]).

(** ** Observations used in the statements *)

(** State and printed lines a block leaves behind, raised or not. *)
Definition res_state (r : result) : state :=
  match r with Done st _ | Raised st _ => st end.

Definition res_out (r : result) : list effect :=
  match r with Done _ out | Raised _ out => out end.

(** The loop invariant behind the finalization guard: an open phrase is not
    finalized. *)
Definition open_not_finalized (st : state) : Prop :=
  phrase_open st = true -> hash_key (current_phrase_id st) ∉ finalized_phrases st.

(** Kinds of messages. *)
Definition successful_status (m : message) : bool :=
  match m with
  | Obj data => py_eq (msg_type_of data) (PStr "status") && truthy (success_of data)
  | _ => false
  end.

Definition failed_status (m : message) : bool :=
  match m with
  | Obj data => py_eq (msg_type_of data) (PStr "status") && negb (truthy (success_of data))
  | _ => false
  end.

Definition is_phrase_msg (m : message) : bool :=
  match m with
  | Obj data => py_eq (msg_type_of data) (PStr "phrase")
  | _ => false
  end.

Definition is_end_msg (m : message) : bool :=
  match m with
  | Obj data => py_eq (msg_type_of data) (PStr "end")
  | _ => false
  end.

(** The message is handled by the phrase branch of the loop. *)
Definition takes_phrase_branch (st : state) (m : message) : bool :=
  match m with
  | Obj data => py_eq (msg_type_of data) (PStr "phrase") && connection_successful st
  | _ => false
  end.

(** ** The presentation code, the connect request and the entry point *)

(** In this part the characters themselves matter ([strip], [upper],
    [lower], [len]): the functions below agree with Python's on texts made
    of ASCII characters, which is what [ascii_only] says of a text. *)
Definition ascii_only (s : string) : bool :=
  forallb (fun c => (nat_of_ascii c <? 128)%nat) (list_ascii_of_string s).

(** The ASCII characters [str.strip()] removes: tab, line feed, vertical
    tab, form feed, carriage return, the separators 0x1C-0x1F and space. *)
Definition is_space (c : ascii) : bool :=
  let n := nat_of_ascii c in
  ((9 <=? n)%nat && (n <=? 13)%nat) || ((28 <=? n)%nat && (n <=? 32)%nat).

Fixpoint lstrip (s : string) : string :=
  match s with
  | EmptyString => EmptyString
  | String c r => if is_space c then lstrip r else s
  end.

Fixpoint rstrip (s : string) : string :=
  match s with
  | EmptyString => EmptyString
  | String c r =>
      match rstrip r with
      | EmptyString => if is_space c then EmptyString else String c EmptyString
      | r' => String c r'
      end
  end.

(** [s.strip()]. *)
Definition strip (s : string) : string := rstrip (lstrip s).

Definition upper_char (c : ascii) : ascii :=
  let n := nat_of_ascii c in
  if (97 <=? n)%nat && (n <=? 122)%nat then ascii_of_nat (n - 32) else c.

Definition lower_char (c : ascii) : ascii :=
  let n := nat_of_ascii c in
  if (65 <=? n)%nat && (n <=? 90)%nat then ascii_of_nat (n + 32) else c.

Fixpoint map_chars (f : ascii -> ascii) (s : string) : string :=
  match s with
  | EmptyString => EmptyString
  | String c r => String (f c) (map_chars f r)
  end.

(** [s.upper()] and [s.lower()]. *)
Definition upper (s : string) : string := map_chars upper_char s.
Definition lower (s : string) : string := map_chars lower_char s.

(** [c in s] for a character [c]. *)
Fixpoint contains (c : ascii) (s : string) : bool :=
  match s with
  | EmptyString => false
  | String a r => Ascii.eqb a c || contains c r
  end.

(** Truth value of a [str]: it is not empty. *)
Definition nonempty (s : string) : bool :=
  match s with EmptyString => false | _ => true end.

(** [len(code) == 9 and code[4] == '-']. *)
Definition dash_at_4 (code : string) : bool :=
  (String.length code =? 9)%nat &&
  match String.get 4 code with
  | Some c => Ascii.eqb c "-"
  | None => false
  end.

(** Lines 31-46.  The second component is the warning of the last branch. *)
Definition format_presentation_code (code : string) : string * list effect :=
  let code := upper (strip code) in
  if (String.length code =? 8)%nat && negb (contains "-" code) then
    (substring 0 4 code +:+ "-" +:+ substring 4 (String.length code - 4) code, [])
  else if dash_at_4 code then (code, [])
  else (code, [Log WARNING]).

Definition CONNECTION_CODE : string := "9005".

(** Lines 53-63: the 'connect' request; the access key is added only when
    one was given. *)
Definition connect_payload (pres_code access_key target_lang : string)
  : gmap string pyval :=
  let connect_payload : gmap string pyval :=
    list_to_map
      [("type", PStr "connect"); ("presentationCode", PStr pres_code);
       ("languageCode", PStr target_lang); ("connectionCode", PStr CONNECTION_CODE)] in
  if nonempty access_key
  then <["accessKey" := PStr access_key]> connect_payload
  else connect_payload.

(** What the script does after reading its three inputs: it gives up, or it
    calls [listen_to_wordly] with these arguments. *)
Inductive launch : Type :=
| Exits
| Connects (pres_code access_key target_lang : string).

(** Lines 218-231, for the three lines [input] returned: the lines written
    to the terminal (the banner, the prompts and the refusal), the warning of
    [format_presentation_code] if any, and the decision. *)
Definition main (raw_code access_key target_lang : string)
  : list string * list effect * launch :=
  let prompts :=
    ["--- Wordly WSS Caption Bridge (MVP v3) ---";
     "Enter Presentation Code (e.g., abcd1234): ";
     "Enter Access Key (or press Enter if none): ";
     "Enter Target Language Code (e.g., en, es): "] in
  let target_lang := strip (lower target_lang) in
  let (formatted_code, warnings) := format_presentation_code raw_code in
  if negb (nonempty formatted_code) || negb (nonempty target_lang) then
    (prompts ++ ["Presentation Code and Target Language are required. Exiting."],
     warnings, Exits)
  else
    (prompts, warnings, Connects formatted_code (strip access_key) target_lang).

(** The script on its three inputs and a feed: the request it sends and
    the effects of the session, if it starts one.  The session runs with the
    flags as shipped. *)
Definition wordly_bridge (raw_code access_key target_lang : string)
    (feed : list message) : option (gmap string pyval * list effect) :=
  match main raw_code access_key target_lang with
  | (_, _, Connects pres_code key lang) =>
      Some (connect_payload pres_code key lang,
            listen_to_wordly shipped_flags lang feed)
  | (_, _, Exits) => None
  end.

(** ** Further observations *)

(** A text without colon that does not start with the change marker. *)
Definition plain_text (t : string) : bool :=
  negb (contains ":" t) &&
  match drop_literal ">> " t with
  | Some _ => false
  | None => true
  end.

(** Only the last element of the list may be a [Commit]. *)
Fixpoint commit_only_last (l : list effect) : bool :=
  match l with
  | [] => true
  | e :: r => (negb (is_commit e) || match r with [] => true | _ => false end)
              && commit_only_last r
  end.

(** The message makes the loop [break]. *)
Definition stops_loop (m : message) : bool := is_end_msg m || failed_status m.

(** A change marker or nothing, followed by a plain text. *)
Definition well_prefixed_text (s : string) : Prop :=
  exists P body, s = P +:+ body /\ (P = "" \/ P = ">> ") /\ plain_text body = true.

Definition well_prefixed (st : state) : Prop :=
  well_prefixed_text (current_phrase_text st).

(** The text a render command shows. *)
Definition shown_text (e : effect) : option string :=
  match e with
  | Update _ text | Commit _ text => Some text
  | _ => None
  end.

(** Every phrase event of the feed carries a plain string for its text. *)
Definition plain_message (m : message) : bool :=
  match m with
  | Obj data =>
      negb (py_eq (msg_type_of data) (PStr "phrase")) ||
      match text_of data with
      | PStr t => plain_text t
      | _ => false
      end
  | _ => true
  end.

Definition is_update (e : effect) : bool :=
  match e with Update _ _ => true | _ => false end.

(** The message opens a phrase: it is a phrase event of a confirmed
    session, in the target language, for an id that is neither finalized nor
    the one in the slot (the branch of line 138). *)
Definition opens_phrase (target_lang : string) (st : state) (m : message) : bool :=
  match m with
  | Obj data =>
      py_eq (msg_type_of data) (PStr "phrase") && connection_successful st
      && py_eq (language_of data) (PStr target_lang)
      && negb (bool_decide (hash_key (phrase_id_of data) ∈ finalized_phrases st))
      && py_ne (phrase_id_of data) (current_phrase_id st)
  | _ => false
  end.

(** * Properties *)

#[local] Set Warnings "-clear-no-such-hyp".

(** ** Python equality and set membership agree *)

Lemma py_eq_hash_key (a b : pyval) : py_eq a b = true <-> hash_key a = hash_key b.
Proof.
  destruct a as [|x|x|x], b as [|y|y|y]; simpl; split; intros H;
    try discriminate; try reflexivity.
  - f_equal. destruct x, y; simpl in *; congruence.
  - injection H as H. destruct x, y; simpl in *; congruence.
  - apply Z.eqb_eq in H. congruence.
  - injection H as H. apply Z.eqb_eq. exact H.
  - apply Z.eqb_eq in H. congruence.
  - injection H as H. apply Z.eqb_eq. exact H.
  - apply Z.eqb_eq in H. congruence.
  - injection H as H. apply Z.eqb_eq. exact H.
  - apply String.eqb_eq in H. congruence.
  - injection H as H. apply String.eqb_eq. exact H.
Qed.

Lemma py_ne_hash_key (a b : pyval) : py_ne a b = true <-> hash_key a <> hash_key b.
Proof.
  unfold py_ne. rewrite negb_true_iff, <- not_true_iff_false.
  now rewrite py_eq_hash_key.
Qed.

Lemma py_eq_refl (a : pyval) : py_eq a a = true.
Proof. now apply py_eq_hash_key. Qed.

Example py_eq_bool_int : py_eq (PBool true) (PInt 1) = true.
Proof. reflexivity. Qed.

Example py_eq_str_int : py_eq (PStr "1") (PInt 1) = false.
Proof. reflexivity. Qed.

(** ** The sample states are states of real runs *)

Lemma active_idle_reached (fl : flags) (target_lang : string) :
  next_state (run fl target_lang initial_state [status_msg true]) = active_idle.
Proof. vm_compute. reflexivity. Qed.

Lemma open_partial_fields :
  open_partial
  = {| current_phrase_id := PInt 1;
       current_phrase_text := "partial";
       finalized_phrases := ∅;
       last_speaker_id := PNone;
       last_speaker_tag := PNone;
       connection_successful := true |}.
Proof. reflexivity. Qed.

Example listen_to_wordly_sample :
  listen_to_wordly shipped_flags "en"
    [status_msg true; phrase_msg "en" (PInt 1) "hel" false;
     phrase_msg "en" (PInt 1) "hello" true; phrase_msg "en" (PInt 1) "again" false;
     end_msg]
  = [Log INFO; Log INFO;
     Log DEBUG; Log INFO; Attribution;
     Log DEBUG; Update (PInt 1) "hel";
     Log DEBUG; Update (PInt 1) "hello"; Commit (PInt 1) "hello";
     Log DEBUG;
     Log DEBUG; Log INFO;
     Log INFO].
Proof. reflexivity. Qed.

(** ** What the regular expression removes *)

Lemma span_non_colon_app (s : string) :
  fst (span_non_colon s) +:+ snd (span_non_colon s) = s.
Proof.
  induction s as [|c r IH]; simpl; [reflexivity|].
  destruct (Ascii.eqb c ":"); simpl; [reflexivity|].
  destruct (span_non_colon r) as [run rest]; simpl in *.
  rewrite <- IH. reflexivity.
Qed.

(** Giving characters of the run back never helps [[^:]+: ] to match: the
    character after a shorter run is not a colon.  So the group matches with
    the whole run or not at all. *)
Lemma not_char_more_colon (s : string) :
  not_char_more ":" s (fun s' => rmatch (Lit ": ") s' Some)
  = drop_literal ": " (snd (span_non_colon s)).
Proof.
  induction s as [|c r IH].
  - reflexivity.
  - cbn [not_char_more span_non_colon].
    destruct (Ascii.eqb c ":") eqn:Hc.
    + cbn [snd rmatch]. now destruct (drop_literal ": " (String c r)).
    + rewrite IH. destruct (span_non_colon r) as [run rest]. cbn [snd].
      destruct (drop_literal ": " rest); [reflexivity|].
      cbn [rmatch drop_literal]. rewrite Ascii.eqb_sym, Hc. reflexivity.
Qed.

(** The backtracking matcher on the pattern and the direct computation
    agree on every text. *)
Lemma re_sub_prefix_direct (s : string) :
  re_sub_prefix s = strip_name_group (strip_marker_group s).
Proof.
  assert (Hname : forall s',
             rmatch (Opt (Cat (NotCharPlus ":") (Lit ": "))) s' Some
             = Some (strip_name_group s')).
  { intros s'. unfold strip_name_group. cbn [rmatch].
    destruct s' as [|a r]; [reflexivity|].
    cbn [span_non_colon]. destruct (Ascii.eqb a ":"); [reflexivity|].
    rewrite not_char_more_colon.
    destruct (span_non_colon r) as [run rest]. cbn [snd].
    now destruct (drop_literal ": " rest). }
  unfold re_sub_prefix, strip_marker_group.
  change (rmatch prefix_pattern s Some)
    with (match
             match drop_literal ">> " s with
             | Some rest => rmatch (Opt (Cat (NotCharPlus ":") (Lit ": "))) rest Some
             | None => None
             end
           with
           | Some rest => Some rest
           | None => rmatch (Opt (Cat (NotCharPlus ":") (Lit ": "))) s Some
           end).
  destruct (drop_literal ">> " s) as [r|]; now rewrite Hname.
Qed.

(** The text the loop takes for the existing prefix, followed by what
    [re.sub] returned, is the display text itself. *)
Lemma drop_literal_app (l s r : string) :
  drop_literal l s = Some r -> s = l +:+ r.
Proof.
  revert s. induction l as [|a l IH]; intros s; simpl.
  - now intros [= ->].
  - destruct s as [|b s]; [discriminate|].
    destruct (Ascii.eqb_spec a b) as [<-|]; [|discriminate].
    intros H. apply IH in H. now subst s.
Qed.

Lemma append_assoc (a b c : string) : (a +:+ b) +:+ c = a +:+ (b +:+ c).
Proof.
  induction a as [|x a IH]; [reflexivity|].
  change (String x ((a +:+ b) +:+ c) = String x (a +:+ (b +:+ c))).
  now rewrite IH.
Qed.

Lemma re_sub_prefix_suffix (s : string) :
  exists p, s = p +:+ re_sub_prefix s.
Proof.
  rewrite re_sub_prefix_direct. unfold strip_name_group, strip_marker_group.
  assert (Hname : forall s', exists p, s' = p +:+ strip_name_group s').
  { intros s'. unfold strip_name_group.
    pose proof (span_non_colon_app s') as Happ.
    destruct (span_non_colon s') as [[|a run] rest]; simpl in Happ;
      try (exists ""; reflexivity).
    destruct (drop_literal ": " rest) as [r|] eqn:Hd; [|exists ""; reflexivity].
    apply drop_literal_app in Hd. subst rest.
    exists (String a run +:+ ": "). rewrite <- Happ.
    now rewrite append_assoc. }
  destruct (drop_literal ">> " s) as [r|] eqn:Hd.
  - apply drop_literal_app in Hd. destruct (Hname r) as [p Hp].
    exists (">> " +:+ p). rewrite Hd. rewrite Hp at 1.
    now rewrite append_assoc.
  - apply Hname.
Qed.

Lemma substring_prefix (p r : string) :
  substring 0 (String.length p) (p +:+ r) = p.
Proof.
  induction p as [|c p IH].
  - now destruct r.
  - change (String c (substring 0 (String.length p) (p +:+ r)) = String c p).
    now rewrite IH.
Qed.

Lemma length_append (p r : string) :
  String.length (p +:+ r) = (String.length p + String.length r)%nat.
Proof.
  induction p as [|c p IH]; [reflexivity|].
  change (S (String.length (p +:+ r)) = S (String.length p + String.length r)).
  now rewrite IH.
Qed.

(** Lines 170-171: the slice the loop keeps is the text the pattern
    matched. *)
Lemma existing_prefix_split (s : string) :
  existing_prefix s +:+ re_sub_prefix s = s.
Proof.
  destruct (re_sub_prefix_suffix s) as [p Hp].
  unfold existing_prefix, existing_prefix_len.
  set (r := re_sub_prefix s) in *. clearbody r. subst s.
  rewrite length_append.
  replace (String.length p + String.length r - String.length r)%nat
    with (String.length p) by lia.
  now rewrite substring_prefix.
Qed.

(** A display text without colon and without marker has no prefix for the
    pattern. *)
Lemma existing_prefix_plain (s : string) :
  drop_literal ">> " s = None ->
  snd (span_non_colon s) = "" ->
  existing_prefix s = "".
Proof.
  intros Hm Hc. unfold existing_prefix, existing_prefix_len.
  rewrite re_sub_prefix_direct. unfold strip_marker_group, strip_name_group.
  rewrite Hm. destruct (span_non_colon s) as [run rest]. simpl in Hc. subst rest.
  assert (Hs : match run with
               | String _ _ =>
                   match drop_literal ": " "" with
                   | Some r => r
                   | None => s
                   end
               | EmptyString => s
               end = s) by now destruct run.
  rewrite Hs, Nat.sub_diag. now destruct s.
Qed.

Example regex_marker_and_name : existing_prefix ">> Ann: good morning" = ">> Ann: ".
Proof. reflexivity. Qed.

Example regex_colon_in_text : existing_prefix "Note: hi" = "Note: ".
Proof. reflexivity. Qed.

Example regex_colon_without_space : existing_prefix "a:b: c" = "".
Proof. reflexivity. Qed.

Example regex_marker_then_colon : existing_prefix ">> : y" = ">> ".
Proof. reflexivity. Qed.

Section LoopFacts.

Variable fl : flags.
Variable target_lang : string.


Lemma step_phrase (st : state) (data : gmap string pyval) :
  py_eq (msg_type_of data) (PStr "phrase") = true ->
  connection_successful st = true ->
  next_state (step fl target_lang st (Obj data)) = res_state (handle_phrase fl target_lang st data) /\
  renders (emitted (step fl target_lang st (Obj data))) = renders (res_out (handle_phrase fl target_lang st data)) /\
  ctl (step fl target_lang st (Obj data)) = Next.
Proof.
  intros Hty Hc. unfold step.
  destruct (msg_type_of data) as [| | |ty]; try discriminate Hty.
  simpl in Hty. apply String.eqb_eq in Hty. subst ty. simpl. rewrite Hc. simpl.
  destruct (handle_phrase fl target_lang st data) as [st' out|st' out]; simpl.
  - auto.
  - unfold renders. rewrite List.filter_app. simpl. rewrite app_nil_r. auto.
Qed.

Lemma step_not_phrase (st : state) (m : message) :
  match m with
  | Obj data => (py_eq (msg_type_of data) (PStr "phrase") && connection_successful st) = false
  | _ => True
  end ->
  renders (emitted (step fl target_lang st m)) = [] /\
  current_phrase_id (next_state (step fl target_lang st m)) = current_phrase_id st /\
  current_phrase_text (next_state (step fl target_lang st m)) = current_phrase_text st /\
  finalized_phrases (next_state (step fl target_lang st m)) = finalized_phrases st /\
  last_speaker_id (next_state (step fl target_lang st m)) = last_speaker_id st /\
  last_speaker_tag (next_state (step fl target_lang st m)) = last_speaker_tag st.
Proof.
  destruct m as [| |data]; [simpl; auto 10 | simpl; auto 10 |].
  intros H. unfold step. rewrite H.
  repeat match goal with |- context [if ?b then _ else _] => destruct b end;
    simpl; auto 10.
Qed.

(** Case analysis of [handle_phrase] along its branches: language filter,
    finalized guard, new phrase or update, text a [str] or not, final or
    not. *)
Ltac phrase_cases st data :=
  unfold handle_phrase, and_then, new_phrase_block, update_block,
    final_block, py_ne;
  destruct (py_eq (language_of data) (PStr target_lang)); simpl;
  [ case_bool_decide; simpl;
    [ | let Hid := fresh "Hid" in
        destruct (py_eq (phrase_id_of data) (current_phrase_id st)) eqn:Hid; simpl;
        [ destruct (text_of data); simpl;
          [ | | | destruct (truthy (is_final_of data)); simpl ]
        | destruct (is_not_None (current_phrase_id st)) eqn:Hopen;
          (destruct (text_of data); simpl;
           [ | | | destruct (truthy (is_final_of data)); simpl ]) ] ]
  | ].

Lemma handle_phrase_flag (st : state) (data : gmap string pyval) :
  connection_successful (res_state (handle_phrase fl target_lang st data)) = connection_successful st.
Proof. phrase_cases st data; reflexivity. Qed.

Lemma handle_phrase_grows (st : state) (data : gmap string pyval) :
  finalized_phrases st ⊆ finalized_phrases (res_state (handle_phrase fl target_lang st data)).
Proof. phrase_cases st data; set_solver. Qed.

Lemma py_eq_false_hash_key (a b : pyval) :
  py_eq a b = false -> hash_key a <> hash_key b.
Proof.
  intros H E. apply py_eq_hash_key in E. congruence.
Qed.

Lemma bears_true (k : key) (e : effect) :
  bears k e = true ->
  match e with
  | Update id _ | Commit id _ => hash_key id = k
  | _ => False
  end.
Proof.
  destruct e; simpl; try discriminate; intros H; now apply bool_decide_eq_true in H.
Qed.

Lemma handle_phrase_inv (st : state) (data : gmap string pyval) :
  open_not_finalized st ->
  open_not_finalized (res_state (handle_phrase fl target_lang st data)).
Proof.
  unfold open_not_finalized, phrase_open. intros Hinv.
  phrase_cases st data; try assumption; try discriminate;
    apply py_eq_false_hash_key in Hid; intros _; try set_solver.
Qed.

(** Whatever [handle_phrase] prints for a phrase, that phrase was not
    finalized when the message arrived. *)
Lemma handle_phrase_fresh (st : state) (data : gmap string pyval) (e : effect) (k : key) :
  open_not_finalized st ->
  In e (res_out (handle_phrase fl target_lang st data)) ->
  bears k e = true ->
  k ∉ finalized_phrases st.
Proof.
  unfold open_not_finalized, phrase_open. intros Hinv.
  phrase_cases st data; intros Hin Hb; simpl in Hin;
    repeat (destruct Hin as [<-|Hin]; [apply bears_true in Hb; subst k; auto|]);
    try contradiction.
Qed.

(** Every commit [handle_phrase] prints puts its phrase in the finalized
    set. *)
Lemma handle_phrase_commit (st : state) (data : gmap string pyval) (e : effect) (k : key) :
  In e (res_out (handle_phrase fl target_lang st data)) ->
  is_commit e = true ->
  bears k e = true ->
  k ∈ finalized_phrases (res_state (handle_phrase fl target_lang st data)).
Proof.
  phrase_cases st data; intros Hin Hc Hb; simpl in Hin;
    repeat (destruct Hin as [<-|Hin];
            [try discriminate Hc; apply bears_true in Hb; subst k; set_solver|]);
    try contradiction.
Qed.

Lemma handle_phrase_one_commit (st : state) (data : gmap string pyval) (k : key) :
  (List.length (commits_for k (res_out (handle_phrase fl target_lang st data))) <= 1)%nat.
Proof.
  unfold commits_for.
  phrase_cases st data; try lia;
    repeat match goal with
      | |- context [bool_decide ?P] => destruct (bool_decide_reflect P)
      end; simpl; try lia.
  apply py_eq_false_hash_key in Hid. congruence.
Qed.

Lemma handle_phrase_renders (st : state) (data : gmap string pyval) :
  renders (res_out (handle_phrase fl target_lang st data))
  = res_out (handle_phrase fl target_lang st data).
Proof. phrase_cases st data; reflexivity. Qed.

(** Filters of the effect list. *)

Lemma commands_for_renders (k : key) (out : list effect) :
  commands_for k (renders out) = commands_for k out.
Proof.
  unfold commands_for, renders.
  induction out as [|e out IH]; simpl; [reflexivity|].
  destruct e; simpl; rewrite IH; reflexivity.
Qed.

Lemma commits_for_commands (k : key) (out : list effect) :
  commits_for k (commands_for k out) = commits_for k out.
Proof.
  unfold commits_for, commands_for.
  induction out as [|e out IH]; simpl; [reflexivity|].
  destruct (bears k e) eqn:Hb; simpl; rewrite ?Hb, ?IH, ?andb_false_r; reflexivity.
Qed.

Lemma commands_for_app (k : key) (a b : list effect) :
  commands_for k (a ++ b) = commands_for k a ++ commands_for k b.
Proof. apply List.filter_app. Qed.

Lemma commits_for_app (k : key) (a b : list effect) :
  commits_for k (a ++ b) = commits_for k a ++ commits_for k b.
Proof. apply List.filter_app. Qed.

Lemma renders_app (a b : list effect) : renders (a ++ b) = renders a ++ renders b.
Proof. apply List.filter_app. Qed.

Lemma commands_for_nil (k : key) (out : list effect) :
  (forall e, In e out -> bears k e = true -> False) -> commands_for k out = [].
Proof.
  unfold commands_for. intros H.
  destruct (List.filter (bears k) out) as [|e l] eqn:E; [reflexivity|].
  assert (Hin : In e (List.filter (bears k) out)) by (rewrite E; now left).
  apply List.filter_In in Hin as [Hin Hb]. destruct (H e Hin Hb).
Qed.

Lemma commits_for_cons (k : key) (out : list effect) :
  commits_for k out <> [] ->
  exists e, In e out /\ is_commit e = true /\ bears k e = true.
Proof.
  unfold commits_for. intros H.
  destruct (List.filter _ out) as [|e l] eqn:E; [congruence|].
  assert (Hin : In e (List.filter (fun e => is_commit e && bears k e) out))
    by (rewrite E; now left).
  apply List.filter_In in Hin as [Hin Hb]. apply andb_true_iff in Hb.
  exists e. tauto.
Qed.

(** ** One message: what [step] preserves *)

Lemma step_cases (st : state) (m : message) :
  (exists data,
     m = Obj data /\
     (next_state (step fl target_lang st m)
        = res_state (handle_phrase fl target_lang st data)) /\
     (renders (emitted (step fl target_lang st m))
        = res_out (handle_phrase fl target_lang st data)))
  \/
  ((renders (emitted (step fl target_lang st m)) = []) /\
   (current_phrase_id (next_state (step fl target_lang st m)) = current_phrase_id st) /\
   (current_phrase_text (next_state (step fl target_lang st m))
      = current_phrase_text st) /\
   (finalized_phrases (next_state (step fl target_lang st m)) = finalized_phrases st) /\
   (last_speaker_id (next_state (step fl target_lang st m)) = last_speaker_id st) /\
   (last_speaker_tag (next_state (step fl target_lang st m)) = last_speaker_tag st)).
Proof.
  destruct (takes_phrase_branch st m) eqn:Hb.
  - left. destruct m as [| |data]; try discriminate. simpl in Hb.
    apply andb_true_iff in Hb as [Hty Hc].
    destruct (step_phrase st data Hty Hc) as (H1 & H2 & _).
    exists data. rewrite H1, H2, handle_phrase_renders. auto.
  - right. apply step_not_phrase. destruct m; auto.
Qed.

Lemma step_inv (st : state) (m : message) :
  open_not_finalized st -> open_not_finalized (next_state (step fl target_lang st m)).
Proof.
  intros Hinv. destruct (step_cases st m) as [(data & -> & Hs & _)|(_ & Hi & _ & Hf & _)].
  - rewrite Hs. now apply handle_phrase_inv.
  - unfold open_not_finalized, phrase_open in *. now rewrite Hi, Hf.
Qed.

Lemma step_grows (st : state) (m : message) :
  finalized_phrases st ⊆ finalized_phrases (next_state (step fl target_lang st m)).
Proof.
  destruct (step_cases st m) as [(data & -> & Hs & _)|(_ & _ & _ & Hf & _)].
  - rewrite Hs. apply handle_phrase_grows.
  - now rewrite Hf.
Qed.

Lemma step_finalized_silent (st : state) (m : message) (k : key) :
  open_not_finalized st ->
  k ∈ finalized_phrases st ->
  commands_for k (emitted (step fl target_lang st m)) = [].
Proof.
  intros Hinv Hk. rewrite <- commands_for_renders.
  destruct (step_cases st m) as [(data & -> & _ & Ho)|(Ho & _)]; rewrite Ho;
    [|reflexivity].
  apply commands_for_nil. intros e Hin Hb.
  now apply (handle_phrase_fresh st data e k Hinv Hin Hb).
Qed.

Lemma step_one_commit (st : state) (m : message) (k : key) :
  (List.length (commits_for k (emitted (step fl target_lang st m))) <= 1)%nat.
Proof.
  rewrite <- commits_for_commands, <- commands_for_renders, commits_for_commands.
  destruct (step_cases st m) as [(data & -> & _ & Ho)|(Ho & _)]; rewrite Ho;
    [apply handle_phrase_one_commit | simpl; lia].
Qed.

Lemma step_commit_finalizes (st : state) (m : message) (k : key) :
  commits_for k (emitted (step fl target_lang st m)) <> [] ->
  k ∈ finalized_phrases (next_state (step fl target_lang st m)).
Proof.
  rewrite <- commits_for_commands, <- commands_for_renders, commits_for_commands.
  destruct (step_cases st m) as [(data & -> & Hs & Ho)|(Ho & _)]; rewrite Ho;
    [|intros H; now destruct H].
  intros H. apply commits_for_cons in H as (e & Hin & Hc & Hb).
  rewrite Hs. now apply (handle_phrase_commit st data e k).
Qed.

(** ** The loop *)

(** Running the loop on [m1 ++ m2]: if [m1] ran into a [break], [m2] is never
    read; otherwise the loop continues on [m2] from the state [m1] left. *)
Lemma run_app (st : state) (m1 m2 : list message) :
  run fl target_lang st (m1 ++ m2) =
  match ctl (run fl target_lang st m1) with
  | Stop => run fl target_lang st m1
  | Next =>
      let o1 := run fl target_lang st m1 in
      let o2 := run fl target_lang (next_state o1) m2 in
      {| next_state := next_state o2;
         emitted := emitted o1 ++ emitted o2;
         ctl := ctl o2 |}
  end.
Proof.
  revert st. induction m1 as [|m m1 IH]; intros st; simpl.
  - now destruct (run fl target_lang st m2).
  - destruct (ctl (step fl target_lang st m)) eqn:Hc; simpl.
    + rewrite IH.
      destruct (ctl (run fl target_lang _ m1)) eqn:Hc1; simpl; rewrite ?Hc1.
      * now rewrite app_assoc.
      * reflexivity.
    + now rewrite Hc.
Qed.

Lemma run_facts (msgs : list message) (st : state) :
  open_not_finalized st ->
  open_not_finalized (next_state (run fl target_lang st msgs)) /\
  finalized_phrases st ⊆ finalized_phrases (next_state (run fl target_lang st msgs)) /\
  (forall k, k ∈ finalized_phrases st ->
             commands_for k (emitted (run fl target_lang st msgs)) = []) /\
  (forall k, (List.length (commits_for k (emitted (run fl target_lang st msgs))) <= 1)%nat) /\
  (forall k, commits_for k (emitted (run fl target_lang st msgs)) <> [] ->
             k ∈ finalized_phrases (next_state (run fl target_lang st msgs))).
Proof.
  revert st. induction msgs as [|m msgs IH]; intros st Hinv; simpl.
  - repeat split; auto; try (simpl; lia). intros k H. now destruct H.
  - pose proof (step_inv st m Hinv) as Hinv1.
    pose proof (step_grows st m) as Hgrow1.
    destruct (ctl (step fl target_lang st m)) eqn:Hc; simpl.
    + destruct (IH _ Hinv1) as (I1 & I2 & I3 & I4 & I5).
      split; [exact I1|]. split; [set_solver|].
      split; [|split].
      * intros k Hk. rewrite commands_for_app, step_finalized_silent by assumption.
        apply I3. set_solver.
      * intros k. rewrite commits_for_app, length_app.
        destruct (commits_for k (emitted (step fl target_lang st m))) eqn:E.
        -- simpl. apply I4.
        -- assert (Hk : k ∈ finalized_phrases (next_state (step fl target_lang st m))).
           { apply step_commit_finalizes. rewrite E. discriminate. }
           specialize (I3 k Hk).
           rewrite <- commits_for_commands, I3. simpl.
           pose proof (step_one_commit st m k) as H1. rewrite E in H1. simpl in *. lia.
      * intros k Hk. rewrite commits_for_app in Hk.
        destruct (commits_for k (emitted (step fl target_lang st m))) eqn:E.
        -- apply I5. exact Hk.
        -- apply I2. apply step_commit_finalizes. rewrite E. discriminate.
    + split; [exact Hinv1|]. split; [exact Hgrow1|].
      split; [|split].
      * intros k Hk. now apply step_finalized_silent.
      * intros k. apply step_one_commit.
      * intros k. apply step_commit_finalizes.
Qed.

Lemma initial_open_not_finalized : open_not_finalized initial_state.
Proof. unfold open_not_finalized, phrase_open. simpl. discriminate. Qed.

(** ** Messages of type "phrase" *)

Lemma step_phrase_eq (st : state) (data : gmap string pyval) :
  py_eq (msg_type_of data) (PStr "phrase") = true ->
  step fl target_lang st (Obj data) =
  if connection_successful st then
    match handle_phrase fl target_lang st data with
    | Done st' out =>
        {| next_state := st'; emitted := raw_packet_log ++ out; ctl := Next |}
    | Raised st' out =>
        {| next_state := st'; emitted := raw_packet_log ++ out ++ [Log ERROR];
           ctl := Next |}
    end
  else {| next_state := st; emitted := raw_packet_log; ctl := Next |}.
Proof.
  intros Hty. unfold step.
  destruct (msg_type_of data) as [| | |ty]; try discriminate Hty.
  simpl in Hty. apply String.eqb_eq in Hty. subst ty. simpl.
  now destruct (connection_successful st).
Qed.

Lemma handle_phrase_finalized (st : state) (data : gmap string pyval) :
  hash_key (phrase_id_of data) ∈ finalized_phrases st ->
  handle_phrase fl target_lang st data = Done st [].
Proof.
  intros Hk. unfold handle_phrase.
  destruct (py_ne (language_of data) (PStr target_lang)); [reflexivity|].
  now rewrite bool_decide_eq_true_2.
Qed.

Lemma handle_phrase_other_language (st : state) (data : gmap string pyval) :
  py_ne (language_of data) (PStr target_lang) = true ->
  handle_phrase fl target_lang st data = Done st [].
Proof. intros H. unfold handle_phrase. now rewrite H. Qed.

(** ** Before the session is confirmed, and after it is over *)

Lemma step_unconfirmed (st : state) (m : message) :
  connection_successful st = false ->
  successful_status m = false ->
  next_state (step fl target_lang st m) = st /\
  renders (emitted (step fl target_lang st m)) = [].
Proof.
  intros Hc Hs. destruct m as [| |data]; simpl; auto.
  simpl in Hs. rewrite Hc, andb_false_r. simpl.
  destruct (py_eq (msg_type_of data) (PStr "status")); simpl in *.
  - rewrite Hs. auto.
  - repeat match goal with |- context [if ?b then _ else _] => destruct b end;
      simpl; auto.
Qed.

Lemma run_unconfirmed (msgs : list message) (st : state) :
  connection_successful st = false ->
  forallb (fun m => negb (successful_status m)) msgs = true ->
  next_state (run fl target_lang st msgs) = st /\
  renders (emitted (run fl target_lang st msgs)) = [].
Proof.
  intros Hc. induction msgs as [|m msgs IH]; simpl; [auto|].
  intros H. apply andb_true_iff in H as [Hm Hrest]. apply negb_true_iff in Hm.
  destruct (step_unconfirmed st m Hc Hm) as [Hs Hr].
  destruct (ctl (step fl target_lang st m)); simpl; [|auto].
  rewrite Hs, renders_app, Hr. simpl. auto.
Qed.

Lemma step_failed_status (st : state) (m : message) :
  failed_status m = true -> ctl (step fl target_lang st m) = Stop.
Proof.
  destruct m as [| |data]; simpl; try discriminate.
  intros H. apply andb_true_iff in H as [-> H]. apply negb_true_iff in H.
  now rewrite H.
Qed.

Lemma step_end (st : state) (m : message) :
  is_end_msg m = true ->
  step fl target_lang st m
  = {| next_state := st; emitted := raw_packet_log ++ [Log INFO]; ctl := Stop |}.
Proof.
  destruct m as [| |data]; simpl; try discriminate.
  destruct (msg_type_of data) as [| | |ty]; try discriminate.
  simpl. intros H. apply String.eqb_eq in H. now subst ty.
Qed.

(** Nothing that follows a message on which the loop breaks is processed. *)
Lemma run_stops (st : state) (m1 m2 : list message) (m : message) :
  (forall st', ctl (step fl target_lang st' m) = Stop) ->
  run fl target_lang st (m1 ++ m :: m2) = run fl target_lang st (m1 ++ [m]) /\
  ctl (run fl target_lang st (m1 ++ [m])) = Stop.
Proof.
  intros Hstop. rewrite !run_app.
  destruct (ctl (run fl target_lang st m1)) eqn:Hc; [|auto].
  simpl. rewrite !Hstop. auto.
Qed.

End LoopFacts.

(** * The properties of the specification *)

(** C1 (at-most-once commit).  In the effects of any run of the loop from
    the initial state, on any messages, every phrase id has at most one
    [Commit] bearing it; once an id is in [finalized_phrases], the rest of
    the run emits no [Update] and no [Commit] bearing it; and a later phrase
    event bearing such an id changes nothing and prints nothing. *)
Theorem C1_at_most_once_commit (fl : flags) (target_lang : string)
    (m1 m2 : list message) (k : key) :
  let before := run fl target_lang initial_state m1 in
  let whole := run fl target_lang initial_state (m1 ++ m2) in
  (List.length (commits_for k (emitted whole)) <= 1)%nat /\
  (k ∈ finalized_phrases (next_state before) ->
   commands_for k (emitted whole) = commands_for k (emitted before)) /\
  (forall data,
     k ∈ finalized_phrases (next_state before) ->
     py_eq (msg_type_of data) (PStr "phrase") = true ->
     hash_key (phrase_id_of data) = k ->
     next_state (step fl target_lang (next_state before) (Obj data)) = next_state before /\
     renders (emitted (step fl target_lang (next_state before) (Obj data))) = []).
Proof.
  intros before whole.
  pose proof (run_facts fl target_lang (m1 ++ m2) initial_state
                initial_open_not_finalized) as (_ & _ & _ & Hone & _).
  pose proof (run_facts fl target_lang m1 initial_state
                initial_open_not_finalized) as (Hinv & _).
  split; [apply Hone|]. split.
  - intros Hk. subst whole. rewrite run_app. fold before.
    destruct (ctl before); [|reflexivity].
    cbv zeta. cbn [emitted]. rewrite commands_for_app.
    destruct (run_facts fl target_lang m2 (next_state before) Hinv)
      as (_ & _ & Hsilent & _).
    rewrite (Hsilent k Hk). apply app_nil_r.
  - intros data Hk Hty Hid. rewrite step_phrase_eq by assumption.
    rewrite handle_phrase_finalized by (rewrite Hid; exact Hk).
    destruct (connection_successful (next_state before)); simpl; auto.
Qed.

(** C10 (open phrase is not finalized; the finalized set only grows).
    After any prefix [m1] of the messages, if the slot holds a phrase id then
    that id is not in [finalized_phrases]; and whatever is in the set after
    [m1] is still in it after any continuation [m2]. *)
Theorem C10_open_phrase_not_finalized (fl : flags) (target_lang : string)
    (m1 m2 : list message) :
  let before := next_state (run fl target_lang initial_state m1) in
  let after := next_state (run fl target_lang initial_state (m1 ++ m2)) in
  (phrase_open before = true ->
   hash_key (current_phrase_id before) ∉ finalized_phrases before) /\
  finalized_phrases before ⊆ finalized_phrases after.
Proof.
  intros before after.
  pose proof (run_facts fl target_lang m1 initial_state
                initial_open_not_finalized) as (Hinv & _).
  split; [exact Hinv|].
  subst after. rewrite run_app.
  destruct (ctl (run fl target_lang initial_state m1)); [|reflexivity].
  cbv zeta. cbn [next_state].
  now destruct (run_facts fl target_lang m2 before Hinv) as (_ & Hgrow & _).
Qed.

(** C5 (phrases are processed only while the session is active).
    As long as no successful status has arrived, the loop prints no render
    command and its variables keep their initial values; a phrase event met
    in a state that is not confirmed leaves the state as it is and prints no
    render command; and a status message without success ends the loop:
    whatever follows it in the feed changes neither the effects nor the
    final state. *)
Theorem C5_phrases_only_while_active (fl : flags) (target_lang : string) :
  (forall msgs,
     forallb (fun m => negb (successful_status m)) msgs = true ->
     next_state (run fl target_lang initial_state msgs) = initial_state /\
     renders (emitted (run fl target_lang initial_state msgs)) = []) /\
  (forall st m,
     connection_successful st = false ->
     is_phrase_msg m = true ->
     next_state (step fl target_lang st m) = st /\
     renders (emitted (step fl target_lang st m)) = [] /\
     ctl (step fl target_lang st m) = Next) /\
  (forall m1 m m2,
     failed_status m = true ->
     run fl target_lang initial_state (m1 ++ m :: m2)
     = run fl target_lang initial_state (m1 ++ [m]) /\
     ctl (run fl target_lang initial_state (m1 ++ [m])) = Stop).
Proof.
  split; [|split].
  - intros msgs H. now apply run_unconfirmed.
  - intros st [| |data] Hc Hp; try discriminate. simpl in Hp.
    rewrite step_phrase_eq, Hc by assumption. auto.
  - intros m1 m m2 H. apply run_stops. intros st'. now apply step_failed_status.
Qed.

(** C6 (language filter).  A phrase event whose language code differs from
    the target language leaves every variable of the loop unchanged (open
    phrase, finalized set, speaker memory) and prints no render command: the
    only effect is the raw packet log. *)
Theorem C6_language_filter (fl : flags) (target_lang : string) (st : state)
    (data : gmap string pyval) :
  py_eq (msg_type_of data) (PStr "phrase") = true ->
  py_ne (language_of data) (PStr target_lang) = true ->
  step fl target_lang st (Obj data)
  = {| next_state := st; emitted := [Log DEBUG]; ctl := Next |} /\
  renders (emitted (step fl target_lang st (Obj data))) = [].
Proof.
  intros Hty Hlang. rewrite step_phrase_eq by assumption.
  rewrite handle_phrase_other_language by assumption.
  now destruct (connection_successful st).
Qed.

Lemma C6_language_filter_witness :
  py_eq (msg_type_of (phrase_data (PStr "fr") (PInt 2) (PStr "bonjour") (PBool true)
                        PNone PNone PNone)) (PStr "phrase") = true /\
  py_ne (language_of (phrase_data (PStr "fr") (PInt 2) (PStr "bonjour") (PBool true)
                        PNone PNone PNone)) (PStr "en") = true /\
  step shipped_flags "en" open_partial (phrase_msg "fr" (PInt 2) "bonjour" true)
  = {| next_state := open_partial; emitted := [Log DEBUG]; ctl := Next |}.
Proof.
  split; [reflexivity|]. split; [reflexivity|].
  apply (C6_language_filter shipped_flags "en" open_partial
           (phrase_data (PStr "fr") (PInt 2) (PStr "bonjour") (PBool true)
              PNone PNone PNone)); reflexivity.
Defined.

(** ** Rollover *)

Lemma handle_phrase_new (fl : flags) (target_lang : string) (st : state)
    (data : gmap string pyval) :
  py_eq (language_of data) (PStr target_lang) = true ->
  hash_key (phrase_id_of data) ∉ finalized_phrases st ->
  py_ne (phrase_id_of data) (current_phrase_id st) = true ->
  handle_phrase fl target_lang st data =
  and_then
    (new_phrase_block fl st (phrase_id_of data) (text_of data) (speaker_id_of data)
       (speaker_tag_of data) (speaker_name_of data))
    (fun st1 =>
       if truthy (is_final_of data)
       then final_block st1 (phrase_id_of data) (text_of data)
       else Done st1 []).
Proof.
  intros Hlang Hfresh Hne. unfold handle_phrase, py_ne at 1.
  rewrite Hlang. simpl. rewrite bool_decide_eq_false_2 by assumption.
  now rewrite Hne.
Qed.

(** C2 (rollover flush), as amended.  In a confirmed session with phrase A
    open, a phrase event in the target language for another id B that is not
    finalized makes the loop print exactly one [Commit] for A, carrying A's
    display text, before anything it prints for B; A's id joins the
    finalized set.  The slot then holds B, except when B's event is final
    and has a string text: then B is committed in the same iteration, joins
    the finalized set as well, and the slot is cleared. *)
Theorem C2_rollover_flush (fl : flags) (target_lang : string) (st : state)
    (data : gmap string pyval) :
  connection_successful st = true ->
  py_eq (msg_type_of data) (PStr "phrase") = true ->
  py_eq (language_of data) (PStr target_lang) = true ->
  phrase_open st = true ->
  py_ne (phrase_id_of data) (current_phrase_id st) = true ->
  hash_key (phrase_id_of data) ∉ finalized_phrases st ->
  let A := current_phrase_id st in
  let B := phrase_id_of data in
  let o := step fl target_lang st (Obj data) in
  exists rest,
    renders (emitted o) = Commit A (current_phrase_text st) :: rest /\
    commands_for (hash_key A) rest = [] /\
    (forall e, In e rest -> bears (hash_key B) e = true) /\
    hash_key A ∈ finalized_phrases (next_state o) /\
    (if truthy (is_final_of data) && is_str (text_of data)
     then current_phrase_id (next_state o) = PNone /\
          hash_key B ∈ finalized_phrases (next_state o) /\
          exists t t', rest = [Update B t; Commit B t']
     else current_phrase_id (next_state o) = B).
Proof.
  intros Hc Hty Hlang Hopen Hne Hfresh A B o. subst o.
  rewrite step_phrase_eq, Hc, (handle_phrase_new fl target_lang st data) by assumption.
  unfold new_phrase_block, final_block, and_then. unfold phrase_open in Hopen.
  rewrite Hopen. fold A B.
  assert (HAB : hash_key B <> hash_key A) by now apply py_ne_hash_key.
  assert (HnA : forall t, bears (hash_key A) (Update B t) = false /\
                          bears (hash_key A) (Commit B t) = false).
  { intros t. simpl. now rewrite bool_decide_eq_false_2. }
  assert (HB : forall t, bears (hash_key B) (Update B t) = true /\
                         bears (hash_key B) (Commit B t) = true).
  { intros t. simpl. now rewrite bool_decide_eq_true_2. }
  destruct (text_of data) as [| | |t]; simpl; rewrite ?andb_false_r;
    try (exists []; repeat split; [intros e []|set_solver]).
  destruct (truthy (is_final_of data)); simpl.
  - eexists. split; [reflexivity|]. unfold commands_for. simpl.
    rewrite !bool_decide_eq_false_2 by assumption.
    split; [reflexivity|]. split; [intros e [<-|[<-|[]]]; apply HB|].
    split; [set_solver|]. split; [reflexivity|]. split; [set_solver|eauto].
  - eexists. split; [reflexivity|]. unfold commands_for. simpl.
    rewrite !bool_decide_eq_false_2 by assumption.
    split; [reflexivity|]. split; [intros e [<-|[]]; apply HB|].
    split; [set_solver|reflexivity].
Qed.

Lemma C2_rollover_flush_witness :
  connection_successful open_partial = true /\
  phrase_open open_partial = true /\
  py_ne (PInt 2) (current_phrase_id open_partial) = true /\
  bool_decide (KNum 2 ∈ finalized_phrases open_partial) = false /\
  exists rest,
    renders (emitted (step shipped_flags "en" open_partial
                        (phrase_msg "en" (PInt 2) "new" false)))
    = Commit (PInt 1) "partial" :: rest /\
    commands_for (KNum 1) rest = [] /\
    current_phrase_id (next_state (step shipped_flags "en" open_partial
                                     (phrase_msg "en" (PInt 2) "new" false)))
    = PInt 2.
Proof.
  split; [reflexivity|]. split; [reflexivity|]. split; [reflexivity|].
  split; [reflexivity|].
  destruct (C2_rollover_flush shipped_flags "en" open_partial
              (phrase_data (PStr "en") (PInt 2) (PStr "new") (PBool false)
                 PNone PNone PNone))
    as (rest & H1 & H2 & _ & _ & H5);
    [reflexivity | reflexivity | reflexivity | reflexivity | reflexivity
    | apply (bool_decide_eq_false_1 _); reflexivity |].
  exists rest. split; [exact H1|]. split; [exact H2|exact H5].
Defined.

(** The rollover claim as first stated fails when the event for B is final:
    after the iteration the slot is empty, not occupied by B. *)
Lemma C2_counterexample_final_event :
  phrase_open open_partial = true /\
  current_phrase_id open_partial = PInt 1 /\
  finalized_phrases open_partial = ∅ /\
  renders (emitted (step shipped_flags "en" open_partial
                      (phrase_msg "en" (PInt 2) "new" true)))
  = [Commit (PInt 1) "partial"; Update (PInt 2) "new"; Commit (PInt 2) "new"] /\
  current_phrase_id (next_state (step shipped_flags "en" open_partial
                                   (phrase_msg "en" (PInt 2) "new" true)))
  = PNone /\
  current_phrase_id (next_state (step shipped_flags "en" open_partial
                                   (phrase_msg "en" (PInt 2) "new" true)))
  <> PInt 2.
Proof. repeat split; try reflexivity. vm_compute. discriminate. Qed.

(** ** End of the presentation *)

(** C4 (end of session), as amended.  An "end" message closes the loop at
    once: it prints no render command, so the phrase that is open at that
    moment gets no [Commit]; the slot and the finalized set stay as they
    were, and nothing that follows in the feed is read. *)
Theorem C4_end_closes_without_flush (fl : flags) (target_lang : string)
    (m1 m2 : list message) (m : message) :
  is_end_msg m = true ->
  let before := run fl target_lang initial_state m1 in
  let whole := run fl target_lang initial_state (m1 ++ m :: m2) in
  renders (emitted whole) = renders (emitted before) /\
  next_state whole = next_state before /\
  ctl whole = Stop.
Proof.
  intros Hend before whole. subst whole.
  assert (Hstop : forall st', ctl (step fl target_lang st' m) = Stop)
    by (intros st'; now rewrite step_end).
  destruct (run_stops fl target_lang initial_state m1 m2 m Hstop) as [-> Hctl].
  split; [|split; [|exact Hctl]]; rewrite run_app; fold before;
    destruct (ctl before); try reflexivity; cbv zeta;
    cbn [emitted next_state run]; rewrite step_end by assumption; simpl.
  - now rewrite renders_app, app_nil_r.
  - reflexivity.
Qed.

Lemma C4_end_closes_without_flush_witness :
  is_end_msg end_msg = true /\
  renders (emitted (run shipped_flags "en" initial_state
                      ([status_msg true; phrase_msg "en" (PInt 3) "partial" false]
                       ++ end_msg :: [phrase_msg "en" (PInt 4) "late" true])))
  = renders (emitted (run shipped_flags "en" initial_state
                        [status_msg true; phrase_msg "en" (PInt 3) "partial" false])).
Proof.
  split; [reflexivity|].
  apply (C4_end_closes_without_flush shipped_flags "en"
           [status_msg true; phrase_msg "en" (PInt 3) "partial" false]
           [phrase_msg "en" (PInt 4) "late" true] end_msg).
  reflexivity.
Defined.

(** Phrase 3 is open and unfinalized when "end" arrives; the run prints no
    [Commit] for it, before or at the close. *)
Lemma C4_counterexample_no_commit_at_end :
  phrase_open (next_state (run shipped_flags "en" initial_state
                             [status_msg true; phrase_msg "en" (PInt 3) "partial" false]))
  = true /\
  renders (emitted (run shipped_flags "en" initial_state
                      [status_msg true; phrase_msg "en" (PInt 3) "partial" false;
                       end_msg]))
  = [Update (PInt 3) "partial"] /\
  List.length (commits_for (KNum 3)
                 (emitted (run shipped_flags "en" initial_state
                             [status_msg true; phrase_msg "en" (PInt 3) "partial" false;
                              end_msg])))
  <> 1%nat /\
  ctl (run shipped_flags "en" initial_state
         [status_msg true; phrase_msg "en" (PInt 3) "partial" false; end_msg])
  = Stop.
Proof. repeat split; try reflexivity. vm_compute. discriminate. Qed.

(** ** Attribution line *)

(** C8: every successful status prints the attribution line again.  On a
    feed with two of them the line is printed twice. *)
Theorem C8_attribution_printed_per_status :
  attributions (emitted (run shipped_flags "en" initial_state
                           [status_msg true; status_msg true]))
  = [Attribution; Attribution] /\
  emitted (step shipped_flags "en" active_idle (status_msg true))
  = [Log DEBUG; Log INFO; Attribution].
Proof. split; reflexivity. Qed.

(** ** Prefix recovery *)

(** C3: the prefix is recomputed from the display text on every update and
    at the final commit.  Phrase 1 opens with the empty prefix; its text
    "Note: hi" makes the pattern take "Note: " for a prefix, so the update
    "bye" is shown as "Note: bye".  A phrase that is final on its first
    event and holds ": " has its own beginning repeated in the commit. *)
Theorem C3_prefix_recomputed_from_text :
  compute_prefix shipped_flags active_idle PNone PNone PNone = "" /\
  renders (emitted (run shipped_flags "en" initial_state
                      [status_msg true; phrase_msg "en" (PInt 1) "Note: hi" false;
                       phrase_msg "en" (PInt 1) "bye" false]))
  = [Update (PInt 1) "Note: hi"; Update (PInt 1) "Note: bye"] /\
  renders (emitted (run shipped_flags "en" initial_state
                      [status_msg true; phrase_msg "en" (PInt 7) "a: b" true]))
  = [Update (PInt 7) "a: b"; Commit (PInt 7) "a: a: b"].
Proof. repeat split; reflexivity. Qed.

(** ** Speaker change *)

Lemma py_ne_None (a : pyval) : py_ne a PNone = is_not_None a.
Proof. now destruct a. Qed.

Lemma phrase_data_type (l i t f s g n : pyval) :
  msg_type_of (phrase_data l i t f s g n) = PStr "phrase".
Proof. reflexivity. Qed.

Lemma phrase_data_language (l i t f s g n : pyval) :
  language_of (phrase_data l i t f s g n) = l.
Proof. reflexivity. Qed.

Lemma phrase_data_id (l i t f s g n : pyval) :
  phrase_id_of (phrase_data l i t f s g n) = i.
Proof. reflexivity. Qed.

Lemma phrase_data_text (l i t f s g n : pyval) :
  text_of (phrase_data l i t f s g n) = t.
Proof. reflexivity. Qed.

Lemma phrase_data_final (l i t f s g n : pyval) :
  is_final_of (phrase_data l i t f s g n) = f.
Proof. reflexivity. Qed.

Lemma phrase_data_speaker_id (l i t f s g n : pyval) :
  speaker_id_of (phrase_data l i t f s g n) = s.
Proof. reflexivity. Qed.

Lemma phrase_data_speaker_tag (l i t f s g n : pyval) :
  speaker_tag_of (phrase_data l i t f s g n) = g.
Proof. reflexivity. Qed.

Lemma phrase_data_speaker_name (l i t f s g n : pyval) :
  speaker_name_of (phrase_data l i t f s g n) = n.
Proof. reflexivity. Qed.

Ltac read_fields :=
  rewrite ?phrase_data_type, ?phrase_data_language, ?phrase_data_id,
    ?phrase_data_text, ?phrase_data_final, ?phrase_data_speaker_id,
    ?phrase_data_speaker_tag, ?phrase_data_speaker_name.

(** Opening a phrase stores the speaker attributes of the opening event,
    whether or not they differ from the remembered ones, and also when the
    text turns out not to be a string. *)
Lemma new_phrase_block_memory (fl : flags) (st : state)
    (phrase_id text speaker_id speaker_tag speaker_name : pyval) :
  last_speaker_id (res_state (new_phrase_block fl st phrase_id text speaker_id
                                speaker_tag speaker_name)) = speaker_id /\
  last_speaker_tag (res_state (new_phrase_block fl st phrase_id text speaker_id
                                 speaker_tag speaker_name)) = speaker_tag.
Proof. unfold new_phrase_block. destruct (str_add _ text); simpl; auto. Qed.

Lemma step_new_phrase_memory (fl : flags) (target_lang : string) (st : state)
    (data : gmap string pyval) :
  connection_successful st = true ->
  py_eq (msg_type_of data) (PStr "phrase") = true ->
  py_eq (language_of data) (PStr target_lang) = true ->
  hash_key (phrase_id_of data) ∉ finalized_phrases st ->
  py_ne (phrase_id_of data) (current_phrase_id st) = true ->
  last_speaker_id (next_state (step fl target_lang st (Obj data))) = speaker_id_of data /\
  last_speaker_tag (next_state (step fl target_lang st (Obj data))) = speaker_tag_of data.
Proof.
  intros Hc Hty Hlang Hfresh Hne.
  rewrite step_phrase_eq, Hc, (handle_phrase_new fl target_lang st data) by assumption.
  pose proof (new_phrase_block_memory fl st (phrase_id_of data) (text_of data)
                (speaker_id_of data) (speaker_tag_of data) (speaker_name_of data))
    as [H1 H2].
  unfold and_then, final_block.
  destruct (new_phrase_block _ _ _ _ _ _ _) as [st1 out1|st1 out1]; simpl in *; auto.
  destruct (truthy (is_final_of data)); simpl; auto.
  destruct (str_add _ (text_of data)); simpl; auto.
Qed.

Lemma run_cons_next (fl : flags) (target_lang : string) (st : state) (m : message)
    (rest : list message) :
  ctl (step fl target_lang st m) = Next ->
  run fl target_lang st (m :: rest) =
  {| next_state := next_state (run fl target_lang (next_state (step fl target_lang st m)) rest);
     emitted := emitted (step fl target_lang st m)
                ++ emitted (run fl target_lang (next_state (step fl target_lang st m)) rest);
     ctl := ctl (run fl target_lang (next_state (step fl target_lang st m)) rest) |}.
Proof. intros H. simpl. now rewrite H. Qed.

Lemma run_nil (fl : flags) (target_lang : string) (st : state) :
  run fl target_lang st [] = {| next_state := st; emitted := []; ctl := Next |}.
Proof. reflexivity. Qed.

(** A new phrase with a string text that is not final: the whole iteration. *)
Lemma step_open_phrase (fl : flags) (target_lang : string) (st : state)
    (data : gmap string pyval) (t : string) :
  connection_successful st = true ->
  py_eq (msg_type_of data) (PStr "phrase") = true ->
  py_eq (language_of data) (PStr target_lang) = true ->
  hash_key (phrase_id_of data) ∉ finalized_phrases st ->
  py_ne (phrase_id_of data) (current_phrase_id st) = true ->
  text_of data = PStr t ->
  truthy (is_final_of data) = false ->
  let prefix :=
    compute_prefix fl st (speaker_id_of data) (speaker_tag_of data)
      (speaker_name_of data) in
  step fl target_lang st (Obj data) =
  {| next_state :=
       {| current_phrase_id := phrase_id_of data;
          current_phrase_text := prefix +:+ t;
          finalized_phrases :=
            if is_not_None (current_phrase_id st)
            then {[ hash_key (current_phrase_id st) ]} ∪ finalized_phrases st
            else finalized_phrases st;
          last_speaker_id := speaker_id_of data;
          last_speaker_tag := speaker_tag_of data;
          connection_successful := true |};
     emitted :=
       Log DEBUG
       :: (if is_not_None (current_phrase_id st)
           then [Commit (current_phrase_id st) (current_phrase_text st)] else [])
       ++ [Update (phrase_id_of data) (prefix +:+ t)];
     ctl := Next |}.
Proof.
  intros Hc Hty Hlang Hfresh Hne Htext Hfinal prefix.
  rewrite step_phrase_eq, Hc, (handle_phrase_new fl target_lang st data) by assumption.
  unfold new_phrase_block, and_then. rewrite Htext, Hfinal, Hc. simpl.
  fold prefix. now rewrite app_nil_r.
Qed.

Lemma step_status_ok (fl : flags) (target_lang : string) :
  step fl target_lang initial_state (status_msg true)
  = {| next_state := active_idle;
       emitted := [Log DEBUG; Log INFO; Attribution];
       ctl := Next |}.
Proof. vm_compute. reflexivity. Qed.

(** The first phrase of a session, not final, with a string text. *)
Lemma step_first_phrase (fl : flags) (target_lang : string)
    (id speaker_id speaker_tag name : pyval) (t : string) :
  is_not_None id = true ->
  step fl target_lang active_idle
    (Obj (phrase_data (PStr target_lang) id (PStr t) (PBool false) speaker_id
            speaker_tag name))
  = {| next_state :=
         opened id (compute_prefix fl active_idle speaker_id speaker_tag name +:+ t)
           speaker_id speaker_tag;
       emitted :=
         [Log DEBUG;
          Update id (compute_prefix fl active_idle speaker_id speaker_tag name +:+ t)];
       ctl := Next |}.
Proof.
  intros Hid.
  rewrite (step_open_phrase fl target_lang active_idle _ t); read_fields.
  - reflexivity.
  - reflexivity.
  - reflexivity.
  - apply py_eq_refl.
  - apply not_elem_of_empty.
  - unfold active_idle. cbn [current_phrase_id]. now rewrite py_ne_None.
  - reflexivity.
  - reflexivity.
Qed.

(** The run on a confirmation followed by two phrases that are not final,
    the second with another id, in terms of the two prefixes. *)
Lemma run_two_phrases (fl : flags) (target_lang : string)
    (id1 id2 sa ta na sb tb nb : pyval) (t1 t2 p1 p2 : string) :
  is_not_None id1 = true ->
  py_ne id2 id1 = true ->
  compute_prefix fl active_idle sa ta na = p1 ->
  compute_prefix fl (opened id1 (p1 +:+ t1) sa ta) sb tb nb = p2 ->
  run fl target_lang initial_state
    [status_msg true;
     Obj (phrase_data (PStr target_lang) id1 (PStr t1) (PBool false) sa ta na);
     Obj (phrase_data (PStr target_lang) id2 (PStr t2) (PBool false) sb tb nb)]
  = {| next_state :=
         {| current_phrase_id := id2;
            current_phrase_text := p2 +:+ t2;
            finalized_phrases := {[ hash_key id1 ]} ∪ ∅;
            last_speaker_id := sb;
            last_speaker_tag := tb;
            connection_successful := true |};
       emitted :=
         [Log DEBUG; Log INFO; Attribution; Log DEBUG; Update id1 (p1 +:+ t1);
          Log DEBUG; Commit id1 (p1 +:+ t1); Update id2 (p2 +:+ t2)];
       ctl := Next |}.
Proof.
  intros Hid1 Hid2 Hp1 Hp2.
  pose proof (step_status_ok fl target_lang) as Hs0.
  pose proof (step_first_phrase fl target_lang id1 sa ta na t1 Hid1) as Hs1.
  rewrite Hp1 in Hs1.
  assert (Hs2 : step fl target_lang (opened id1 (p1 +:+ t1) sa ta)
                  (Obj (phrase_data (PStr target_lang) id2 (PStr t2) (PBool false)
                          sb tb nb))
                = {| next_state :=
                       {| current_phrase_id := id2;
                          current_phrase_text := p2 +:+ t2;
                          finalized_phrases := {[ hash_key id1 ]} ∪ ∅;
                          last_speaker_id := sb;
                          last_speaker_tag := tb;
                          connection_successful := true |};
                     emitted := [Log DEBUG; Commit id1 (p1 +:+ t1);
                                 Update id2 (p2 +:+ t2)];
                     ctl := Next |}).
  { rewrite (step_open_phrase fl target_lang (opened id1 (p1 +:+ t1) sa ta) _ t2);
      read_fields.
    - rewrite Hp2. unfold opened.
      cbn [current_phrase_id current_phrase_text finalized_phrases].
      now rewrite Hid1.
    - reflexivity.
    - reflexivity.
    - apply py_eq_refl.
    - apply not_elem_of_empty.
    - exact Hid2.
    - reflexivity.
    - reflexivity. }
  rewrite run_cons_next by (rewrite Hs0; reflexivity).
  rewrite Hs0. cbn [next_state emitted ctl].
  rewrite run_cons_next by (rewrite Hs1; reflexivity).
  rewrite Hs1. cbn [next_state emitted ctl].
  rewrite run_cons_next by (rewrite Hs2; reflexivity).
  rewrite Hs2, run_nil. reflexivity.
Qed.

(** C7 (speaker change), as amended.  With the change marker enabled, let
    phrase 1 of speaker A open the session and phrase 2 of another speaker B
    follow.  Phrase 2 is shown with the marker in front.  Phrase 1 is shown
    with the marker as well whenever A's id or tag is not [None], because the
    speaker memory starts as [(None, None)]; it has an empty prefix only when
    both are [None].  And every time the new-phrase branch runs, the speaker
    memory takes the speaker attributes of the opening event. *)
Theorem C7_speaker_change_marker (fl : flags) (target_lang : string)
    (id1 id2 sa ta na sb tb nb : pyval) (t1 t2 : string) :
  SHOW_SPEAKER_CHANGES fl = true ->
  is_not_None id1 = true ->
  py_ne id2 id1 = true ->
  py_ne sb sa || py_ne tb ta = true ->
  let e1 := Obj (phrase_data (PStr target_lang) id1 (PStr t1) (PBool false) sa ta na) in
  let e2 := Obj (phrase_data (PStr target_lang) id2 (PStr t2) (PBool false) sb tb nb) in
  let p1 := if is_not_None sa || is_not_None ta
            then ">> " +:+ name_part fl na else "" in
  let p2 := ">> " +:+ name_part fl nb in
  let o := run fl target_lang initial_state [status_msg true; e1; e2] in
  renders (emitted o)
  = [Update id1 (p1 +:+ t1); Commit id1 (p1 +:+ t1); Update id2 (p2 +:+ t2)] /\
  last_speaker_id (next_state o) = sb /\
  last_speaker_tag (next_state o) = tb /\
  (forall st data,
     connection_successful st = true ->
     py_eq (msg_type_of data) (PStr "phrase") = true ->
     py_eq (language_of data) (PStr target_lang) = true ->
     hash_key (phrase_id_of data) ∉ finalized_phrases st ->
     py_ne (phrase_id_of data) (current_phrase_id st) = true ->
     last_speaker_id (next_state (step fl target_lang st (Obj data)))
     = speaker_id_of data /\
     last_speaker_tag (next_state (step fl target_lang st (Obj data)))
     = speaker_tag_of data).
Proof.
  intros Hmark Hid1 Hid2 Hchg e1 e2 p1 p2 o.
  assert (Hp1 : compute_prefix fl active_idle sa ta na = p1).
  { unfold compute_prefix, speaker_changed, marker_part, active_idle.
    cbn [last_speaker_id last_speaker_tag]. now rewrite !py_ne_None, Hmark. }
  assert (Hp2 : compute_prefix fl (opened id1 (p1 +:+ t1) sa ta) sb tb nb = p2).
  { unfold compute_prefix, speaker_changed, marker_part, opened.
    cbn [last_speaker_id last_speaker_tag]. now rewrite Hchg, Hmark. }
  subst o e1 e2.
  rewrite (run_two_phrases fl target_lang id1 id2 sa ta na sb tb nb t1 t2 p1 p2
             Hid1 Hid2 Hp1 Hp2).
  cbn [next_state emitted last_speaker_id last_speaker_tag].
  split; [reflexivity|]. split; [reflexivity|]. split; [reflexivity|].
  intros st data. apply step_new_phrase_memory.
Qed.

Lemma C7_speaker_change_marker_witness :
  SHOW_SPEAKER_CHANGES shipped_flags = true /\
  is_not_None (PInt 1) = true /\
  py_ne (PInt 2) (PInt 1) = true /\
  py_ne (PStr "B") PNone || py_ne PNone PNone = true /\
  renders (emitted (run shipped_flags "en" initial_state
                      [status_msg true;
                       Obj (phrase_data (PStr "en") (PInt 1) (PStr "hello") (PBool false)
                              PNone PNone PNone);
                       Obj (phrase_data (PStr "en") (PInt 2) (PStr "world") (PBool false)
                              (PStr "B") PNone PNone)]))
  = [Update (PInt 1) "hello"; Commit (PInt 1) "hello"; Update (PInt 2) ">> world"].
Proof.
  split; [reflexivity|]. split; [reflexivity|]. split; [reflexivity|].
  split; [reflexivity|].
  apply (C7_speaker_change_marker shipped_flags "en" (PInt 1) (PInt 2)
           PNone PNone PNone (PStr "B") PNone PNone "hello" "world");
    reflexivity.
Defined.

(** The scenario as first stated fails: the first speaker of the session has
    an id, the speaker memory starts empty, and phrase 1 is shown with the
    change marker too. *)
Lemma C7_counterexample_first_speaker_marked :
  SHOW_SPEAKER_CHANGES shipped_flags = true /\
  compute_prefix shipped_flags active_idle (PStr "A") PNone PNone = ">> " /\
  renders (emitted (run shipped_flags "en" initial_state
                      [status_msg true;
                       spoken_msg "en" (PInt 1) "hello" false "A";
                       spoken_msg "en" (PInt 2) "world" false "B"]))
  = [Update (PInt 1) ">> hello"; Commit (PInt 1) ">> hello";
     Update (PInt 2) ">> world"].
Proof. repeat split; reflexivity. Qed.

(** ** Malformed events *)

Lemma get_insert_default (data : gmap string pyval) (k k' : string) (v d : pyval) :
  data !! k = None ->
  (k = k' -> v = d) ->
  get (<[k := v]> data) k' d = get data k' d.
Proof.
  intros Hnone Hv. unfold get. destruct (decide (k = k')) as [<-|Hne].
  - rewrite lookup_insert_eq, Hnone. simpl. now apply Hv.
  - now rewrite lookup_insert_ne.
Qed.

(** [step] and [handle_phrase] read the decoded object through the nine
    [data.get] calls only. *)
Lemma step_reads_fields (fl : flags) (target_lang : string) (st : state)
    (d1 d2 : gmap string pyval) :
  msg_type_of d1 = msg_type_of d2 ->
  success_of d1 = success_of d2 ->
  language_of d1 = language_of d2 ->
  phrase_id_of d1 = phrase_id_of d2 ->
  text_of d1 = text_of d2 ->
  is_final_of d1 = is_final_of d2 ->
  speaker_id_of d1 = speaker_id_of d2 ->
  speaker_tag_of d1 = speaker_tag_of d2 ->
  speaker_name_of d1 = speaker_name_of d2 ->
  step fl target_lang st (Obj d1) = step fl target_lang st (Obj d2).
Proof.
  intros H1 H2 H3 H4 H5 H6 H7 H8 H9. unfold step, handle_phrase.
  now rewrite H1, H2, H3, H4, H5, H6, H7, H8, H9.
Qed.

(** An absent key reads as the default of its [data.get] call: adding the key
    with that default changes nothing. *)
Lemma step_default (fl : flags) (target_lang : string) (st : state)
    (data : gmap string pyval) (k : string) (v : pyval) :
  data !! k = None ->
  (k = "translatedText" /\ v = PStr "") \/
  (k = "phraseld" /\ v = PNone) \/
  (k = "isFinal" /\ v = PBool false) ->
  step fl target_lang st (Obj (<[k := v]> data)) = step fl target_lang st (Obj data).
Proof.
  intros Hnone Hk.
  apply step_reads_fields;
    unfold msg_type_of, success_of, language_of, phrase_id_of, text_of, is_final_of,
      speaker_id_of, speaker_tag_of, speaker_name_of;
    apply get_insert_default; try assumption;
    destruct Hk as [[-> ->]|[[-> ->]|[-> ->]]]; intros E;
    first [discriminate E | reflexivity].
Qed.

(** C9 (malformed events), as amended.  A phrase event never ends the
    session, however its fields look: the loop goes on with the next message
    and the confirmation flag is unchanged.  A message that is not JSON, or
    not a JSON object, is skipped with a warning (an error, for the latter)
    and nothing else.  An event with a missing field is not skipped: a
    missing text is read as the empty string, a missing phrase identifier as
    [None] and a missing [isFinal] as [False], and the event is processed
    with these values like any other. *)
Theorem C9_malformed_event_keeps_session (fl : flags) (target_lang : string)
    (st : state) :
  (forall data,
     py_eq (msg_type_of data) (PStr "phrase") = true ->
     ctl (step fl target_lang st (Obj data)) = Next /\
     connection_successful (next_state (step fl target_lang st (Obj data)))
     = connection_successful st) /\
  step fl target_lang st NonJSON
  = {| next_state := st; emitted := [Log WARNING]; ctl := Next |} /\
  step fl target_lang st NonObject
  = {| next_state := st; emitted := [Log DEBUG; Log ERROR]; ctl := Next |} /\
  (forall data,
     data !! "translatedText" = None ->
     step fl target_lang st (Obj data)
     = step fl target_lang st (Obj (<["translatedText" := PStr ""]> data))) /\
  (forall data,
     data !! "phraseld" = None ->
     step fl target_lang st (Obj data)
     = step fl target_lang st (Obj (<["phraseld" := PNone]> data))) /\
  (forall data,
     data !! "isFinal" = None ->
     step fl target_lang st (Obj data)
     = step fl target_lang st (Obj (<["isFinal" := PBool false]> data))).
Proof.
  split; [|split; [reflexivity|split; [reflexivity|]]].
  - intros data Hty. rewrite step_phrase_eq by assumption.
    destruct (connection_successful st) eqn:Hc; [|auto].
    pose proof (handle_phrase_flag fl target_lang st data) as Hflag.
    destruct (handle_phrase fl target_lang st data); simpl in *;
      rewrite Hflag; auto.
  - repeat split; intros data Hnone; symmetry; apply step_default; auto.
Qed.

(** The claim as first stated fails.  In a confirmed session with nothing
    buffered, a phrase event without identifier prints an [Update] and
    changes the buffered text; with phrase 1 open, a phrase event without
    text commits phrase 1 and takes the slot. *)
Lemma C9_counterexample_missing_fields :
  no_id_data !! "phraseld" = None /\
  renders (emitted (step shipped_flags "en" active_idle (Obj no_id_data)))
  = [Update PNone "hi"] /\
  current_phrase_text (next_state (step shipped_flags "en" active_idle (Obj no_id_data)))
  = "hi" /\
  next_state (step shipped_flags "en" active_idle (Obj no_id_data)) <> active_idle /\
  no_text_data !! "translatedText" = None /\
  renders (emitted (step shipped_flags "en" open_partial (Obj no_text_data)))
  = [Commit (PInt 1) "partial"; Update (PInt 2) ""] /\
  current_phrase_id (next_state (step shipped_flags "en" open_partial (Obj no_text_data)))
  = PInt 2.
Proof.
  repeat split; try reflexivity.
  intros H. apply (f_equal current_phrase_text) in H. vm_compute in H. discriminate H.
Qed.

(** * Further properties of the code *)

(** ** Trimming and case *)

Lemma upper_char_idem (c : ascii) : upper_char (upper_char c) = upper_char c.
Proof. destruct c as [[] [] [] [] [] [] [] []]; reflexivity. Qed.

Lemma lower_char_idem (c : ascii) : lower_char (lower_char c) = lower_char c.
Proof. destruct c as [[] [] [] [] [] [] [] []]; reflexivity. Qed.

Lemma is_space_upper_char (c : ascii) : is_space (upper_char c) = is_space c.
Proof. destruct c as [[] [] [] [] [] [] [] []]; reflexivity. Qed.

Lemma is_space_lower_char (c : ascii) : is_space (lower_char c) = is_space c.
Proof. destruct c as [[] [] [] [] [] [] [] []]; reflexivity. Qed.

Lemma upper_char_dash (c : ascii) : Ascii.eqb (upper_char c) "-" = Ascii.eqb c "-".
Proof. destruct c as [[] [] [] [] [] [] [] []]; reflexivity. Qed.

Lemma map_chars_length (f : ascii -> ascii) (s : string) :
  String.length (map_chars f s) = String.length s.
Proof. induction s as [|c r IH]; simpl; congruence. Qed.

Lemma map_chars_idem (f : ascii -> ascii) (s : string) :
  (forall c, f (f c) = f c) -> map_chars f (map_chars f s) = map_chars f s.
Proof. intros Hf. induction s as [|c r IH]; simpl; [reflexivity|]. now rewrite Hf, IH. Qed.

Lemma map_chars_empty (f : ascii -> ascii) (s : string) :
  map_chars f s = "" <-> s = "".
Proof. destruct s; simpl; split; congruence. Qed.

Lemma lstrip_map_chars (f : ascii -> ascii) (s : string) :
  (forall c, is_space (f c) = is_space c) ->
  lstrip (map_chars f s) = map_chars f (lstrip s).
Proof.
  intros Hf. induction s as [|c r IH]; simpl; [reflexivity|].
  rewrite Hf. now destruct (is_space c).
Qed.

Lemma rstrip_map_chars (f : ascii -> ascii) (s : string) :
  (forall c, is_space (f c) = is_space c) ->
  rstrip (map_chars f s) = map_chars f (rstrip s).
Proof.
  intros Hf. induction s as [|c r IH]; simpl; [reflexivity|].
  rewrite IH, Hf. destruct (rstrip r); simpl; [|reflexivity].
  now destruct (is_space c).
Qed.

Lemma strip_map_chars (f : ascii -> ascii) (s : string) :
  (forall c, is_space (f c) = is_space c) ->
  strip (map_chars f s) = map_chars f (strip s).
Proof.
  intros Hf. unfold strip. now rewrite lstrip_map_chars, rstrip_map_chars.
Qed.

Lemma rstrip_idem (s : string) : rstrip (rstrip s) = rstrip s.
Proof.
  induction s as [|c r IH]; simpl; [reflexivity|].
  destruct (rstrip r) as [|d r'] eqn:Hr.
  - destruct (is_space c) eqn:Hc; simpl; [reflexivity|]. now rewrite Hc.
  - simpl. simpl in IH. rewrite IH. reflexivity.
Qed.

(** [rstrip] keeps the first character of a text that starts with a
    character it does not remove. *)
Lemma rstrip_head (c : ascii) (r : string) :
  is_space c = false -> exists r', rstrip (String c r) = String c r'.
Proof.
  intros Hc. simpl. destruct (rstrip r); rewrite ?Hc; eauto.
Qed.

Lemma lstrip_head (s : string) :
  match lstrip s with
  | EmptyString => True
  | String c _ => is_space c = false
  end.
Proof.
  induction s as [|c r IH]; simpl; [exact I|].
  destruct (is_space c) eqn:Hc; [exact IH|exact Hc].
Qed.

Lemma strip_idem (s : string) : strip (strip s) = strip s.
Proof.
  unfold strip. pose proof (lstrip_head s) as Hh.
  destruct (lstrip s) as [|c r]; [reflexivity|].
  destruct (rstrip_head c r Hh) as [r' Hr']. rewrite Hr' at 1.
  simpl lstrip. rewrite Hh, <- Hr'. apply rstrip_idem.
Qed.

Lemma lstrip_length (s : string) : (String.length (lstrip s) <= String.length s)%nat.
Proof.
  induction s as [|c r IH]; simpl; [lia|]. destruct (is_space c); simpl; lia.
Qed.

Lemma rstrip_length (s : string) : (String.length (rstrip s) <= String.length s)%nat.
Proof.
  induction s as [|c r IH]; simpl; [lia|].
  destruct (rstrip r); [destruct (is_space c)|]; simpl in *; lia.
Qed.

Lemma upper_strip (s : string) : upper (strip s) = strip (upper s).
Proof. unfold upper. symmetry. apply strip_map_chars, is_space_upper_char. Qed.

Lemma lower_strip (s : string) : lower (strip s) = strip (lower s).
Proof. unfold lower. symmetry. apply strip_map_chars, is_space_lower_char. Qed.

(** The normalised code needs no further normalisation. *)
Lemma normal_form (s : string) :
  strip (upper (strip s)) = upper (strip s) /\
  upper (upper (strip s)) = upper (strip s).
Proof.
  split.
  - now rewrite <- upper_strip, strip_idem.
  - apply map_chars_idem, upper_char_idem.
Qed.

(** ** [format_presentation_code] *)

Lemma rstrip_keeps_last (x : string) (c : ascii) :
  is_space c = false -> rstrip (x +:+ String c "") = x +:+ String c "".
Proof.
  intros Hc. induction x as [|a x IH].
  - simpl. now rewrite Hc.
  - change (rstrip (String a (x +:+ String c "")) = String a (x +:+ String c "")).
    simpl. rewrite IH. now destruct x.
Qed.

Lemma rstrip_fixed_last (x : string) (c : ascii) :
  rstrip (x +:+ String c "") = x +:+ String c "" -> is_space c = false.
Proof.
  induction x as [|a x IH].
  - simpl. now destruct (is_space c).
  - change (rstrip (String a (x +:+ String c "")) = String a (x +:+ String c "")
            -> is_space c = false).
    simpl. destruct (rstrip (x +:+ String c "")) as [|d r'] eqn:Hr.
    + destruct x; destruct (is_space a); discriminate.
    + intros [= H]. apply IH. exact H.
Qed.

Lemma strip_fixed_head (c : ascii) (r : string) :
  strip (String c r) = String c r -> is_space c = false.
Proof.
  unfold strip. simpl. destruct (is_space c) eqn:Hc; [|reflexivity].
  intros H. apply (f_equal String.length) in H. simpl in H.
  pose proof (rstrip_length (lstrip r)). pose proof (lstrip_length r). lia.
Qed.

Lemma strip_fixed_rstrip (s : string) : strip s = s -> rstrip s = s.
Proof. intros H. rewrite <- H at 1. unfold strip. rewrite rstrip_idem. exact H. Qed.

Lemma eight_chars (u : string) :
  String.length u = 8%nat ->
  exists c0 c1 c2 c3 c4 c5 c6 c7,
    u = String c0 (String c1 (String c2 (String c3
          (String c4 (String c5 (String c6 (String c7 ""))))))).
Proof.
  intros H.
  destruct u as [|c0 [|c1 [|c2 [|c3 [|c4 [|c5 [|c6 [|c7 [|c8 u]]]]]]]]];
    try discriminate H.
  eauto 10.
Qed.

(** The code with the dash inserted is itself in normal form, and it is of
    the second, accepted shape. *)
Lemma dashed_code_normal (u : string) :
  String.length u = 8%nat ->
  contains "-" u = false ->
  strip u = u ->
  upper u = u ->
  let r := substring 0 4 u +:+ "-" +:+ substring 4 (String.length u - 4) u in
  strip r = r /\ upper r = r /\ String.length r = 9%nat /\ dash_at_4 r = true /\
  substring 0 4 r +:+ substring 5 4 r = u.
Proof.
  intros Hlen Hdash Hstrip Hupper.
  destruct (eight_chars u Hlen) as (c0 & c1 & c2 & c3 & c4 & c5 & c6 & c7 & ->).
  pose proof (strip_fixed_head _ _ Hstrip) as H0.
  pose proof (rstrip_fixed_last
                (String c0 (String c1 (String c2 (String c3
                   (String c4 (String c5 (String c6 "")))))))
                c7 (strip_fixed_rstrip _ Hstrip)) as H7.
  injection Hupper as U0 U1 U2 U3 U4 U5 U6 U7.
  cbv zeta.
  change (substring 0 4 _ +:+ "-" +:+ substring 4 _ _)
    with (String c0 (String c1 (String c2 (String c3 (String "-"
           (String c4 (String c5 (String c6 (String c7 ""))))))))).
  split; [|split; [|split; [|split]]].
  - unfold strip. simpl lstrip. rewrite H0.
    apply (rstrip_keeps_last
             (String c0 (String c1 (String c2 (String c3 (String "-"
                (String c4 (String c5 (String c6 "")))))))) c7 H7).
  - unfold upper. simpl. now rewrite U0, U1, U2, U3, U4, U5, U6, U7.
  - reflexivity.
  - reflexivity.
  - reflexivity.
Qed.

Lemma contains_upper_dash (s : string) : contains "-" (upper s) = contains "-" s.
Proof.
  unfold upper. induction s as [|c r IH]; simpl; [reflexivity|].
  now rewrite upper_char_dash, IH.
Qed.

(** The three branches of [format_presentation_code], by the shape of the
    normalised code. *)
Lemma format_presentation_code_branches (code : string) :
  let u := upper (strip code) in
  ((String.length u =? 8)%nat && negb (contains "-" u) = true /\
   format_presentation_code code
   = (substring 0 4 u +:+ "-" +:+ substring 4 (String.length u - 4) u, [])) \/
  ((String.length u =? 8)%nat && negb (contains "-" u) = false /\
   dash_at_4 u = true /\ format_presentation_code code = (u, [])) \/
  ((String.length u =? 8)%nat && negb (contains "-" u) = false /\
   dash_at_4 u = false /\ format_presentation_code code = (u, [Log WARNING])).
Proof.
  intros u. unfold format_presentation_code. fold u.
  destruct ((String.length u =? 8)%nat && negb (contains "-" u)); [now left|].
  destruct (dash_at_4 u); [right; left|right; right]; auto.
Qed.

Lemma format_normal (u : string) :
  strip u = u -> upper u = u ->
  format_presentation_code u
  = (if (String.length u =? 8)%nat && negb (contains "-" u)
     then (substring 0 4 u +:+ "-" +:+ substring 4 (String.length u - 4) u, [])
     else if dash_at_4 u then (u, []) else (u, [Log WARNING])).
Proof. intros Hs Hu. unfold format_presentation_code. now rewrite Hs, Hu. Qed.

Lemma dash_at_4_not_eight (r : string) :
  dash_at_4 r = true -> (String.length r =? 8)%nat && negb (contains "-" r) = false.
Proof.
  unfold dash_at_4. intros H. apply andb_true_iff in H as [H _].
  apply Nat.eqb_eq in H. rewrite H. reflexivity.
Qed.

(** X1 (dash insertion).  For an ASCII code whose trimmed text has eight
    characters and no dash, [format_presentation_code] logs no warning and
    returns the upper-cased text with a dash between its two halves: nine
    characters, the dash at index 4, and the text back when the dash is
    taken out. *)
Theorem X1_format_code_inserts_dash (code : string) :
  ascii_only code = true ->
  String.length (strip code) = 8%nat ->
  contains "-" (strip code) = false ->
  let u := upper (strip code) in
  let r := fst (format_presentation_code code) in
  snd (format_presentation_code code) = [] /\
  r = substring 0 4 u +:+ "-" +:+ substring 4 4 u /\
  String.length r = 9%nat /\
  String.get 4 r = Some "-"%char /\
  substring 0 4 r +:+ substring 5 4 r = u.
Proof.
  intros _ Hlen Hdash u r.
  assert (Hlen' : String.length u = 8%nat)
    by (unfold u, upper; now rewrite map_chars_length).
  assert (Hdash' : contains "-" u = false)
    by (unfold u; now rewrite contains_upper_dash).
  destruct (normal_form code) as [Hs Hu]. fold u in Hs, Hu.
  destruct (dashed_code_normal u Hlen' Hdash' Hs Hu) as (_ & _ & H9 & H4 & Hback).
  assert (Hr : format_presentation_code code
               = (substring 0 4 u +:+ "-" +:+ substring 4 (String.length u - 4) u, [])).
  { unfold format_presentation_code. fold u. now rewrite Hlen', Hdash'. }
  subst r. rewrite Hr. cbn [fst snd]. rewrite Hlen' in *.
  change (8 - 4)%nat with 4%nat in *.
  repeat split; try assumption.
  unfold dash_at_4 in H4. apply andb_true_iff in H4 as [_ H4].
  destruct (String.get 4 _) as [c|]; [|discriminate].
  apply Ascii.eqb_eq in H4. now subst c.
Qed.

Lemma X1_format_code_inserts_dash_witness :
  ascii_only "  abcd1234 " = true /\
  String.length (strip "  abcd1234 ") = 8%nat /\
  contains "-" (strip "  abcd1234 ") = false /\
  fst (format_presentation_code "  abcd1234 ") = "ABCD" +:+ "-" +:+ "1234".
Proof.
  split; [reflexivity|]. split; [reflexivity|]. split; [reflexivity|].
  apply (X1_format_code_inserts_dash "  abcd1234 "); reflexivity.
Defined.

(** X2 (idempotence).  Formatting a code that was already formatted gives
    the same code again, with the same warning or none: a formatted code can
    be fed back to [format_presentation_code]. *)
Theorem X2_format_code_idempotent (code : string) :
  ascii_only code = true ->
  format_presentation_code (fst (format_presentation_code code))
  = format_presentation_code code.
Proof.
  intros _. destruct (normal_form code) as [Hs Hu].
  destruct (format_presentation_code_branches code)
    as [(Hc & ->)|[(Hc & Hd & ->)|(Hc & Hd & ->)]]; cbn [fst].
  - apply andb_true_iff in Hc as [Hlen Hdash].
    apply Nat.eqb_eq in Hlen. apply negb_true_iff in Hdash.
    destruct (dashed_code_normal _ Hlen Hdash Hs Hu) as (Hs' & Hu' & _ & H4 & _).
    rewrite (format_normal _ Hs' Hu'), (dash_at_4_not_eight _ H4), H4.
    reflexivity.
  - now rewrite (format_normal _ Hs Hu), Hc, Hd.
  - now rewrite (format_normal _ Hs Hu), Hc, Hd.
Qed.

Lemma X2_format_code_idempotent_witness :
  ascii_only " abc-1234" = true /\
  format_presentation_code (fst (format_presentation_code " abc-1234"))
  = ("ABC-1234", [Log WARNING]).
Proof.
  split; [reflexivity|].
  rewrite (X2_format_code_idempotent " abc-1234"); reflexivity.
Defined.

(** X3 (normal form and warning).  Whatever the ASCII input, the code
    returned has no surrounding whitespace and no lower-case letter left,
    and the warning is logged exactly when the returned code is not of the
    shape "nine characters with a dash at index 4". *)
Theorem X3_format_code_warns_iff_malformed (code : string) :
  ascii_only code = true ->
  let r := fst (format_presentation_code code) in
  strip r = r /\
  upper r = r /\
  (snd (format_presentation_code code) = [] <-> dash_at_4 r = true) /\
  (snd (format_presentation_code code) = [Log WARNING] <-> dash_at_4 r = false).
Proof.
  intros _ r. subst r. destruct (normal_form code) as [Hs Hu].
  destruct (format_presentation_code_branches code)
    as [(Hc & ->)|[(Hc & Hd & ->)|(Hc & Hd & ->)]]; cbn [fst snd].
  - apply andb_true_iff in Hc as [Hlen Hdash].
    apply Nat.eqb_eq in Hlen. apply negb_true_iff in Hdash.
    destruct (dashed_code_normal _ Hlen Hdash Hs Hu) as (Hs' & Hu' & _ & H4 & _).
    rewrite H4. repeat split; auto; discriminate.
  - rewrite Hd. repeat split; auto; discriminate.
  - rewrite Hd. repeat split; auto; discriminate.
Qed.

Lemma X3_format_code_warns_iff_malformed_witness :
  ascii_only "ab cd" = true /\
  strip (fst (format_presentation_code "ab cd")) = fst (format_presentation_code "ab cd").
Proof.
  split; [reflexivity|].
  apply (X3_format_code_warns_iff_malformed "ab cd"). reflexivity.
Defined.

(** ** The entry point and the connect request *)

Lemma nonempty_false (s : string) : nonempty s = false <-> s = "".
Proof. destruct s; simpl; split; congruence. Qed.

Lemma format_code_empty (code : string) :
  fst (format_presentation_code code) = "" <-> strip code = "".
Proof.
  destruct (format_presentation_code_branches code)
    as [(Hc & ->)|[(_ & _ & ->)|(_ & _ & ->)]]; cbn [fst].
  - apply andb_true_iff in Hc as [Hlen _]. apply Nat.eqb_eq in Hlen.
    unfold upper in *. rewrite map_chars_length in Hlen.
    destruct (strip code) as [|c0 [|c1 [|c2 [|c3 r]]]]; try discriminate Hlen.
    split; discriminate.
  - apply map_chars_empty.
  - apply map_chars_empty.
Qed.

Lemma strip_lower_empty (s : string) : strip (lower s) = "" <-> strip s = "".
Proof. rewrite <- lower_strip. apply map_chars_empty. Qed.

Lemma main_launch (raw_code access_key target_lang : string) :
  snd (main raw_code access_key target_lang)
  = if negb (nonempty (fst (format_presentation_code raw_code)))
       || negb (nonempty (strip (lower target_lang)))
    then Exits
    else Connects (fst (format_presentation_code raw_code)) (strip access_key)
           (strip (lower target_lang)).
Proof.
  unfold main. destruct (format_presentation_code raw_code) as [formatted warnings].
  cbn [fst]. now destruct (negb (nonempty formatted) || _).
Qed.

(** X4 (when the script connects).  The script gives up, printing the
    refusal as its last line, exactly when the presentation code or the
    language is blank (empty once trimmed); any other input, including a
    code of the wrong shape, starts a session.  A blank code is also
    reported by the warning of [format_presentation_code]. *)
Theorem X4_main_refuses_blank_input (raw_code access_key target_lang : string) :
  ascii_only raw_code = true ->
  ascii_only target_lang = true ->
  (snd (main raw_code access_key target_lang) = Exits
   <-> strip raw_code = "" \/ strip target_lang = "") /\
  (snd (main raw_code access_key target_lang) = Exits ->
   last (fst (fst (main raw_code access_key target_lang)))
   = Some "Presentation Code and Target Language are required. Exiting.") /\
  (strip raw_code = "" ->
   snd (fst (main raw_code access_key target_lang)) = [Log WARNING]).
Proof.
  intros _ _. split; [|split].
  - rewrite main_launch.
    destruct (nonempty (fst (format_presentation_code raw_code))) eqn:Hc;
      destruct (nonempty (strip (lower target_lang))) eqn:Hl; simpl.
    + split; [discriminate|]. intros [H|H].
      * apply format_code_empty, nonempty_false in H. congruence.
      * apply strip_lower_empty, nonempty_false in H. congruence.
    + split; [|reflexivity]. intros _. right.
      now apply strip_lower_empty, nonempty_false.
    + split; [|reflexivity]. intros _. left.
      now apply format_code_empty, nonempty_false.
    + split; [|reflexivity]. intros _. left.
      now apply format_code_empty, nonempty_false.
  - unfold main. destruct (format_presentation_code raw_code) as [formatted warnings].
    destruct (negb (nonempty formatted) || _); [reflexivity|discriminate].
  - intros Hblank. unfold main, format_presentation_code. rewrite Hblank. reflexivity.
Qed.

Lemma X4_main_refuses_blank_input_witness :
  ascii_only "   " = true /\ ascii_only "en" = true /\
  (snd (main "   " "key" "en") = Exits <-> strip "   " = "" \/ strip "en" = "").
Proof.
  split; [reflexivity|]. split; [reflexivity|].
  apply (X4_main_refuses_blank_input "   " "key" "en"); reflexivity.
Defined.

Lemma connect_payload_lookups (pres_code access_key target_lang : string) :
  connect_payload pres_code access_key target_lang !! "type" = Some (PStr "connect") /\
  connect_payload pres_code access_key target_lang !! "presentationCode"
  = Some (PStr pres_code) /\
  connect_payload pres_code access_key target_lang !! "languageCode"
  = Some (PStr target_lang) /\
  connect_payload pres_code access_key target_lang !! "connectionCode"
  = Some (PStr CONNECTION_CODE) /\
  connect_payload pres_code access_key target_lang !! "accessKey"
  = if nonempty access_key then Some (PStr access_key) else None.
Proof.
  unfold connect_payload. destruct (nonempty access_key).
  - rewrite !lookup_insert_ne by discriminate. rewrite lookup_insert_eq.
    repeat split; reflexivity.
  - repeat split; reflexivity.
Qed.

Lemma formatted_code_normal (code : string) :
  strip (fst (format_presentation_code code)) = fst (format_presentation_code code) /\
  upper (fst (format_presentation_code code)) = fst (format_presentation_code code).
Proof.
  destruct (normal_form code) as [Hs Hu].
  destruct (format_presentation_code_branches code)
    as [(Hc & ->)|[(_ & _ & ->)|(_ & _ & ->)]]; cbn [fst]; auto.
  apply andb_true_iff in Hc as [Hlen Hdash].
  apply Nat.eqb_eq in Hlen. apply negb_true_iff in Hdash.
  now destruct (dashed_code_normal _ Hlen Hdash Hs Hu) as (Hs' & Hu' & _).
Qed.

Lemma language_normal (target_lang : string) :
  strip (strip (lower target_lang)) = strip (lower target_lang) /\
  lower (strip (lower target_lang)) = strip (lower target_lang).
Proof.
  split; [apply strip_idem|].
  rewrite lower_strip. f_equal. apply map_chars_idem, lower_char_idem.
Qed.

(** X5 (what the connect request holds).  When the script starts a session,
    the request it sends has type "connect" and connection code "9005"; its
    presentation code is the formatted code, not empty, trimmed and in upper
    case; its language code is the input trimmed and in lower case, not
    empty; and it holds an access key only if the key typed is not blank,
    and then the trimmed key.  The session filters on that same language
    code. *)
Theorem X5_connect_request (raw_code access_key target_lang : string)
    (feed : list message) (payload : gmap string pyval) (out : list effect) :
  ascii_only raw_code = true ->
  ascii_only access_key = true ->
  ascii_only target_lang = true ->
  wordly_bridge raw_code access_key target_lang feed = Some (payload, out) ->
  let p := fst (format_presentation_code raw_code) in
  let t := strip (lower target_lang) in
  payload !! "type" = Some (PStr "connect") /\
  payload !! "connectionCode" = Some (PStr "9005") /\
  payload !! "presentationCode" = Some (PStr p) /\
  p <> "" /\ strip p = p /\ upper p = p /\
  payload !! "languageCode" = Some (PStr t) /\
  t <> "" /\ strip t = t /\ lower t = t /\
  payload !! "accessKey"
  = (if nonempty (strip access_key) then Some (PStr (strip access_key)) else None) /\
  out = listen_to_wordly shipped_flags t feed.
Proof.
  intros Hraw _ _ Hrun p t. unfold wordly_bridge in Hrun.
  pose proof (main_launch raw_code access_key target_lang) as Hmain.
  destruct (main raw_code access_key target_lang) as [[prints warnings] l].
  cbn [snd] in Hmain. fold p t in Hmain.
  destruct (nonempty p) eqn:Hp; destruct (nonempty t) eqn:Ht; simpl in Hmain;
    subst l; try discriminate Hrun.
  injection Hrun as <- <-.
  destruct (connect_payload_lookups p (strip access_key) t) as (H1 & H2 & H3 & H4 & H5).
  destruct (formatted_code_normal raw_code) as (Hps & Hpu).
  destruct (language_normal target_lang) as (Hts & Htl).
  repeat split; try assumption.
  - intros E. rewrite E in Hp. discriminate.
  - intros E. rewrite E in Ht. discriminate.
Qed.

Lemma X5_connect_request_witness :
  wordly_bridge "abcd1234" " key " "En" []
  = Some (connect_payload "ABCD-1234" "key" "en",
          listen_to_wordly shipped_flags "en" []) /\
  connect_payload "ABCD-1234" "key" "en" !! "accessKey" = Some (PStr "key") /\
  connect_payload "ABCD-1234" "key" "en" !! "languageCode" = Some (PStr "en").
Proof.
  split; [reflexivity|].
  destruct (X5_connect_request "abcd1234" " key " "En" []
              (connect_payload "ABCD-1234" "key" "en")
              (listen_to_wordly shipped_flags "en" [])
              eq_refl eq_refl eq_refl eq_refl)
    as (_ & _ & _ & _ & _ & _ & Hlang & _ & _ & _ & Hkey & _).
  split; [exact Hkey|exact Hlang].
Defined.

Lemma py_eq_str (a : pyval) (s : string) : py_eq a (PStr s) = true -> a = PStr s.
Proof.
  destruct a; simpl; try discriminate. intros H. apply String.eqb_eq in H. now subst.
Qed.

(** X6 (the filter is exact).  In a session the script started, a phrase
    event prints something only if its language code is, character for
    character, the language typed at the prompt once trimmed and put in
    lower case; so an event whose code holds an upper-case letter or
    surrounding blanks is never shown. *)
Theorem X6_only_exact_language_is_shown (raw_code access_key target_lang : string)
    (p k t : string) (st : state) (data : gmap string pyval) :
  ascii_only target_lang = true ->
  snd (main raw_code access_key target_lang) = Connects p k t ->
  py_eq (msg_type_of data) (PStr "phrase") = true ->
  renders (emitted (step shipped_flags t st (Obj data))) <> [] ->
  language_of data = PStr (strip (lower target_lang)) /\
  (forall l, language_of data = PStr l -> lower l = l /\ strip l = l).
Proof.
  intros _ Hmain Hty Hout. rewrite main_launch in Hmain.
  destruct (negb _ || negb _); [discriminate|]. injection Hmain as _ _ <-.
  rewrite step_phrase_eq in Hout by assumption.
  assert (Hl : language_of data = PStr (strip (lower target_lang))).
  { destruct (connection_successful st); [|now destruct Hout].
    destruct (py_ne (language_of data) (PStr (strip (lower target_lang)))) eqn:Hne.
    - rewrite handle_phrase_other_language in Hout by assumption. now destruct Hout.
    - apply negb_false_iff in Hne. now apply py_eq_str. }
  split; [exact Hl|].
  intros l Hl'. rewrite Hl in Hl'. injection Hl' as <-.
  destruct (language_normal target_lang) as [Hs Hlow]. auto.
Qed.

Lemma X6_only_exact_language_is_shown_witness :
  ascii_only " EN " = true /\
  snd (main "abcd1234" "" " EN ") = Connects "ABCD-1234" "" "en" /\
  renders (emitted (step shipped_flags "en" active_idle
                      (phrase_msg "en" (PInt 1) "hello" false)))
  <> [] /\
  language_of (phrase_data (PStr "en") (PInt 1) (PStr "hello") (PBool false)
                 PNone PNone PNone)
  = PStr (strip (lower " EN ")).
Proof.
  split; [reflexivity|]. split; [reflexivity|].
  assert (Hout : renders (emitted (step shipped_flags "en" active_idle
                                     (phrase_msg "en" (PInt 1) "hello" false)))
                 <> []) by (vm_compute; discriminate).
  split; [exact Hout|].
  apply (X6_only_exact_language_is_shown "abcd1234" "" " EN " "ABCD-1234" "" "en"
           active_idle
           (phrase_data (PStr "en") (PInt 1) (PStr "hello") (PBool false)
              PNone PNone PNone)
           eq_refl eq_refl eq_refl Hout).
Defined.

(** ** When the loop stops, and what a status message does *)

Lemma step_ctl (fl : flags) (target_lang : string) (st : state) (m : message) :
  ctl (step fl target_lang st m) = if stops_loop m then Stop else Next.
Proof.
  destruct m as [| |data]; [reflexivity|reflexivity|].
  unfold stops_loop, is_end_msg, failed_status, step.
  destruct (py_eq (msg_type_of data) (PStr "status")) eqn:Hs.
  - apply py_eq_str in Hs. rewrite Hs. cbn [py_eq String.eqb]. simpl.
    now destruct (truthy (success_of data)).
  - destruct (py_eq (msg_type_of data) (PStr "end")); [reflexivity|].
    simpl.
    destruct (py_eq (msg_type_of data) (PStr "phrase") && connection_successful st).
    + now destruct (handle_phrase fl target_lang st data).
    + destruct (py_eq (msg_type_of data) (PStr "error")); [reflexivity|].
      now destruct (connection_successful st && unhandled_type (msg_type_of data)).
Qed.

(** X7 (what ends the session).  The loop breaks on an "end" message and on
    a status message without success, and on nothing else: errors reported
    by the server, unknown message types, undecodable messages and phrase
    events of any shape all let it continue.  A feed without such a message
    is read to its last message. *)
Theorem X7_loop_stops_only_on_end_or_failure (fl : flags) (target_lang : string) :
  (forall st m, ctl (step fl target_lang st m) = Stop <-> stops_loop m = true) /\
  (forall st msgs,
     forallb (fun m => negb (stops_loop m)) msgs = true ->
     ctl (run fl target_lang st msgs) = Next) /\
  (forall st msgs,
     ctl (run fl target_lang st msgs) = Stop ->
     existsb stops_loop msgs = true).
Proof.
  assert (Hrun : forall msgs st,
             ctl (run fl target_lang st msgs) = Stop -> existsb stops_loop msgs = true).
  { induction msgs as [|m msgs IH]; intros st; simpl; [discriminate|].
    pose proof (step_ctl fl target_lang st m) as Hm.
    destruct (stops_loop m); [reflexivity|]. rewrite Hm. simpl. apply IH. }
  split; [|split].
  - intros st m. rewrite step_ctl. destruct (stops_loop m); split; congruence.
  - intros st msgs Hall.
    destruct (ctl (run fl target_lang st msgs)) eqn:Hc; [reflexivity|].
    apply Hrun in Hc. apply existsb_exists in Hc as (m & Hin & Hm).
    rewrite forallb_forall in Hall. specialize (Hall m Hin). now rewrite Hm in Hall.
  - intros st msgs. apply Hrun.
Qed.

Lemma step_flag (fl : flags) (target_lang : string) (st : state) (m : message) :
  connection_successful (next_state (step fl target_lang st m))
  = connection_successful st || (successful_status m).
Proof.
  destruct m as [| |data]; simpl; rewrite ?orb_false_r; try reflexivity.
  destruct (py_eq (msg_type_of data) (PStr "status")) eqn:Hs.
  - simpl. destruct (truthy (success_of data)); simpl;
      now rewrite ?orb_true_r, ?orb_false_r.
  - simpl. rewrite orb_false_r.
    destruct (py_eq (msg_type_of data) (PStr "end")); [reflexivity|].
    destruct (py_eq (msg_type_of data) (PStr "phrase") && connection_successful st).
    + pose proof (handle_phrase_flag fl target_lang st data) as H.
      now destruct (handle_phrase fl target_lang st data).
    + destruct (py_eq (msg_type_of data) (PStr "error")); [reflexivity|].
      now destruct (connection_successful st && unhandled_type (msg_type_of data)).
Qed.

(** X8 (a confirmed session stays confirmed).  No message resets the
    confirmation: once a successful status has been processed, phrase events
    are handled for the rest of the feed, whatever arrives in between. *)
Theorem X8_confirmation_is_kept (fl : flags) (target_lang : string) (st : state)
    (msgs : list message) :
  connection_successful st = true ->
  connection_successful (next_state (run fl target_lang st msgs)) = true.
Proof.
  revert st. induction msgs as [|m msgs IH]; intros st Hc; simpl; [exact Hc|].
  assert (H1 : connection_successful (next_state (step fl target_lang st m)) = true)
    by (rewrite step_flag, Hc; reflexivity).
  destruct (ctl (step fl target_lang st m)); simpl; [now apply IH|exact H1].
Qed.

Lemma X8_confirmation_is_kept_witness :
  connection_successful active_idle = true /\
  connection_successful
    (next_state (run shipped_flags "en" active_idle
                   [NonJSON; status_msg false; phrase_msg "en" (PInt 1) "x" true]))
  = true.
Proof.
  split; [reflexivity|].
  apply (X8_confirmation_is_kept shipped_flags "en" active_idle). reflexivity.
Defined.

Lemma filter_fixed_forallb {A : Type} (f : A -> bool) (l : list A) :
  List.filter f l = l -> forallb f l = true.
Proof.
  induction l as [|a l IH]; [reflexivity|]. simpl.
  destruct (f a) eqn:Hf.
  - intros [= H]. now rewrite IH.
  - intros H. exfalso.
    pose proof (List.filter_length_le f l) as Hlen.
    rewrite H in Hlen. simpl in Hlen. lia.
Qed.

Lemma renders_no_attribution (out : list effect) :
  renders out = out -> attributions out = [].
Proof.
  intros H. apply filter_fixed_forallb in H. unfold attributions.
  induction out as [|e out IH]; [reflexivity|].
  simpl in H. apply andb_true_iff in H as [He H].
  destruct e; try discriminate He; simpl; now apply IH.
Qed.

Lemma step_attributions (fl : flags) (target_lang : string) (st : state) (m : message) :
  attributions (emitted (step fl target_lang st m))
  = if successful_status m then [Attribution] else [].
Proof.
  destruct m as [| |data]; [reflexivity|reflexivity|].
  unfold successful_status, step.
  destruct (py_eq (msg_type_of data) (PStr "status")).
  - simpl. now destruct (truthy (success_of data)).
  - simpl. destruct (py_eq (msg_type_of data) (PStr "end")); [reflexivity|].
    destruct (py_eq (msg_type_of data) (PStr "phrase") && connection_successful st).
    + pose proof (renders_no_attribution _
                    (handle_phrase_renders fl target_lang st data)) as Ha.
      destruct (handle_phrase fl target_lang st data) as [st' out|st' out];
        cbn [emitted res_out] in *; unfold attributions in *;
        cbn [List.filter is_attribution]; rewrite ?List.filter_app, Ha; reflexivity.
    + destruct (py_eq (msg_type_of data) (PStr "error")); [reflexivity|].
      now destruct (connection_successful st && unhandled_type (msg_type_of data)).
Qed.

(** X9 (how often the attribution line is printed).  Each successful status
    message prints the attribution line once, and no other message prints
    it: on a feed that does not end the session, the number of attribution
    lines is the number of successful status messages in the feed. *)
Theorem X9_attribution_per_successful_status (fl : flags) (target_lang : string)
    (st : state) (msgs : list message) :
  forallb (fun m => negb (stops_loop m)) msgs = true ->
  List.length (attributions (emitted (run fl target_lang st msgs)))
  = List.length (List.filter successful_status msgs).
Proof.
  revert st. induction msgs as [|m msgs IH]; intros st Hall; [reflexivity|].
  simpl in Hall. apply andb_true_iff in Hall as [Hm Hall].
  apply negb_true_iff in Hm.
  cbn [run]. rewrite step_ctl, Hm. cbn [emitted].
  unfold attributions in *. rewrite List.filter_app, length_app.
  fold (attributions (emitted (step fl target_lang st m))).
  rewrite step_attributions, IH by assumption.
  cbn [List.filter]. now destruct (successful_status m).
Qed.

Lemma X9_attribution_per_successful_status_witness :
  forallb (fun m => negb (stops_loop m))
    [status_msg true; phrase_msg "en" (PInt 1) "x" false; status_msg true] = true /\
  List.length (attributions (emitted (run shipped_flags "en" initial_state
     [status_msg true; phrase_msg "en" (PInt 1) "x" false; status_msg true])))
  = 2%nat.
Proof.
  split; [reflexivity|].
  rewrite (X9_attribution_per_successful_status shipped_flags "en" initial_state);
    reflexivity.
Defined.

(** ** The finalized set and the order of the commands of a phrase *)

(** Case analysis of [handle_phrase], as in the first part. *)
Ltac handle_cases tl st data :=
  unfold handle_phrase, and_then, new_phrase_block, update_block, final_block, py_ne;
  destruct (py_eq (language_of data) (PStr tl)); simpl;
  [ case_bool_decide; simpl;
    [ | let Hid := fresh "Hid" in
        destruct (py_eq (phrase_id_of data) (current_phrase_id st)) eqn:Hid; simpl;
        [ destruct (text_of data); simpl;
          [ | | | destruct (truthy (is_final_of data)); simpl ]
        | destruct (is_not_None (current_phrase_id st)) eqn:Hopen;
          (destruct (text_of data); simpl;
           [ | | | destruct (truthy (is_final_of data)); simpl ]) ] ]
  | ].

Lemma handle_phrase_finalizes_by_commit (fl : flags) (target_lang : string)
    (st : state) (data : gmap string pyval) (k : key) :
  k ∈ finalized_phrases (res_state (handle_phrase fl target_lang st data)) ->
  k ∈ finalized_phrases st \/
  commits_for k (res_out (handle_phrase fl target_lang st data)) <> [].
Proof.
  unfold commits_for.
  handle_cases target_lang st data; intros Hk; auto;
    repeat (apply elem_of_union in Hk as [Hk|Hk];
            [apply elem_of_singleton in Hk; subst k; right;
             repeat match goal with
               | |- context [bool_decide ?P] => destruct (bool_decide_reflect P)
               end; simpl; first [discriminate | congruence]|]);
    auto.
Qed.

Lemma handle_phrase_commit_last (fl : flags) (target_lang : string)
    (st : state) (data : gmap string pyval) (k : key) :
  commit_only_last (commands_for k (res_out (handle_phrase fl target_lang st data)))
  = true.
Proof.
  unfold commands_for.
  handle_cases target_lang st data; try reflexivity;
    try (apply py_eq_false_hash_key in Hid);
    repeat match goal with
      | |- context [bool_decide ?P] => destruct (bool_decide_reflect P)
      end; simpl; try reflexivity; congruence.
Qed.

Lemma step_finalizes_by_commit (fl : flags) (target_lang : string) (st : state)
    (m : message) (k : key) :
  k ∈ finalized_phrases (next_state (step fl target_lang st m)) ->
  k ∈ finalized_phrases st \/ commits_for k (emitted (step fl target_lang st m)) <> [].
Proof.
  rewrite <- (commits_for_commands k (emitted _)), <- commands_for_renders,
    commits_for_commands.
  destruct (step_cases fl target_lang st m) as [(data & -> & Hs & Ho)|(_ & _ & _ & Hf & _)].
  - rewrite Hs, Ho. apply handle_phrase_finalizes_by_commit.
  - rewrite Hf. auto.
Qed.

Lemma step_commit_last (fl : flags) (target_lang : string) (st : state)
    (m : message) (k : key) :
  commit_only_last (commands_for k (emitted (step fl target_lang st m))) = true.
Proof.
  rewrite <- commands_for_renders.
  destruct (step_cases fl target_lang st m) as [(data & -> & _ & Ho)|(Ho & _)];
    rewrite Ho; [apply handle_phrase_commit_last|reflexivity].
Qed.

Lemma run_finalizes_by_commit (fl : flags) (target_lang : string)
    (msgs : list message) (st : state) (k : key) :
  k ∈ finalized_phrases (next_state (run fl target_lang st msgs)) ->
  k ∈ finalized_phrases st \/ commits_for k (emitted (run fl target_lang st msgs)) <> [].
Proof.
  revert st. induction msgs as [|m msgs IH]; intros st; simpl; [auto|].
  destruct (ctl (step fl target_lang st m)); cbn [next_state emitted].
  - intros Hk. rewrite commits_for_app.
    destruct (IH _ Hk) as [H1|H2].
    + destruct (step_finalizes_by_commit fl target_lang st m k H1) as [H|H]; [auto|].
      right. destruct (commits_for k (emitted (step fl target_lang st m)));
        [now destruct H|discriminate].
    + right. intros E. apply app_eq_nil in E as [_ E]. auto.
  - apply step_finalizes_by_commit.
Qed.

(** X10 (the finalized set is the set of committed phrases).  After any
    feed, an id is in [finalized_phrases] exactly when the run has printed a
    [Commit] bearing it, and then it has printed exactly one: the set holds
    nothing but the phrases committed so far. *)
Theorem X10_finalized_iff_committed_once (fl : flags) (target_lang : string)
    (msgs : list message) (k : key) :
  k ∈ finalized_phrases (next_state (run fl target_lang initial_state msgs))
  <-> List.length (commits_for k (emitted (run fl target_lang initial_state msgs)))
      = 1%nat.
Proof.
  pose proof (run_facts fl target_lang msgs initial_state initial_open_not_finalized)
    as (_ & _ & _ & Hone & Hfin).
  split.
  - intros Hk.
    destruct (run_finalizes_by_commit fl target_lang msgs initial_state k Hk)
      as [H|H]; [now apply elem_of_empty in H|].
    specialize (Hone k).
    destruct (commits_for k (emitted (run fl target_lang initial_state msgs)));
      [now destruct H|simpl in *; lia].
  - intros Hlen. apply Hfin. intros E. rewrite E in Hlen. discriminate.
Qed.

Lemma filter_commit_commands (k : key) (out : list effect) :
  List.filter is_commit (commands_for k out) = commits_for k out.
Proof.
  unfold commands_for, commits_for.
  induction out as [|e out IH]; [reflexivity|]. simpl.
  destruct (bears k e); simpl; rewrite ?andb_false_r, ?andb_true_r;
    [destruct (is_commit e)|]; now rewrite IH.
Qed.

Lemma commit_only_last_app (a b : list effect) :
  List.filter is_commit a = [] ->
  commit_only_last (a ++ b) = commit_only_last b.
Proof.
  induction a as [|e a IH]; [reflexivity|]. simpl.
  destruct (is_commit e); [discriminate|]. intros H. simpl. now apply IH.
Qed.

Lemma run_commit_last (fl : flags) (target_lang : string) (msgs : list message)
    (st : state) (k : key) :
  open_not_finalized st ->
  commit_only_last (commands_for k (emitted (run fl target_lang st msgs))) = true.
Proof.
  revert st. induction msgs as [|m msgs IH]; intros st Hinv; [reflexivity|].
  simpl. pose proof (step_inv fl target_lang st m Hinv) as Hinv1.
  destruct (ctl (step fl target_lang st m)); cbn [emitted];
    [|apply step_commit_last].
  rewrite commands_for_app.
  destruct (commits_for k (emitted (step fl target_lang st m))) as [|c cs] eqn:E.
  - rewrite commit_only_last_app by now rewrite filter_commit_commands.
    now apply IH.
  - assert (Hk : k ∈ finalized_phrases (next_state (step fl target_lang st m))).
    { apply step_commit_finalizes. rewrite E. discriminate. }
    destruct (run_facts fl target_lang msgs _ Hinv1) as (_ & _ & Hsilent & _).
    rewrite (Hsilent k Hk), app_nil_r. apply step_commit_last.
Qed.

(** X11 (a phrase ends with its commit).  Among the commands a run prints
    for one phrase id, only the last can be a [Commit]: the updates of a
    phrase all come before its commit, and nothing is printed for it
    afterwards. *)
Theorem X11_commit_is_last_command (fl : flags) (target_lang : string)
    (msgs : list message) (k : key) :
  commit_only_last
    (commands_for k (emitted (run fl target_lang initial_state msgs))) = true.
Proof. apply run_commit_last, initial_open_not_finalized. Qed.

(** ** Texts for which the prefix is recovered *)

Lemma contains_colon_span (t : string) :
  contains ":" t = false -> snd (span_non_colon t) = "".
Proof.
  induction t as [|c r IH]; simpl; [reflexivity|].
  destruct (Ascii.eqb c ":"); [discriminate|]. simpl. intros H.
  specialize (IH H). now destruct (span_non_colon r).
Qed.

Lemma strip_name_group_no_colon (t : string) :
  contains ":" t = false -> strip_name_group t = t.
Proof.
  intros H. apply contains_colon_span in H. unfold strip_name_group.
  destruct (span_non_colon t) as [run rest]. simpl in H. subst rest.
  now destruct run.
Qed.

(** On "marker or nothing, then a plain text" the pattern finds the marker
    or nothing. *)
Lemma existing_prefix_recovered (P body : string) :
  P = "" \/ P = ">> " ->
  plain_text body = true ->
  existing_prefix (P +:+ body) = P.
Proof.
  intros HP Hplain. unfold plain_text in Hplain.
  apply andb_true_iff in Hplain as [Hcolon Hmarker].
  apply negb_true_iff in Hcolon.
  unfold existing_prefix, existing_prefix_len. rewrite re_sub_prefix_direct.
  destruct HP as [-> | ->].
  - change ("" +:+ body) with body.
    unfold strip_marker_group. destruct (drop_literal ">> " body); [discriminate|].
    rewrite strip_name_group_no_colon, Nat.sub_diag by assumption.
    now destruct body.
  - change (strip_marker_group (">> " +:+ body)) with body.
    rewrite strip_name_group_no_colon by assumption.
    rewrite length_append.
    replace (String.length ">> " + String.length body - String.length body)%nat
      with (String.length ">> ") by lia.
    apply substring_prefix.
Qed.

Lemma append_empty_r (s : string) : s +:+ "" = s.
Proof.
  induction s as [|c s IH]; [reflexivity|].
  change (String c (s +:+ "") = String c s). now rewrite IH.
Qed.

Lemma compute_prefix_without_names (fl : flags) (st : state)
    (speaker_id speaker_tag speaker_name : pyval) :
  SHOW_SPEAKER_NAMES fl = false ->
  compute_prefix fl st speaker_id speaker_tag speaker_name = "" \/
  compute_prefix fl st speaker_id speaker_tag speaker_name = ">> ".
Proof.
  intros Hn. unfold compute_prefix, marker_part, name_part. rewrite Hn.
  destruct (speaker_changed st speaker_id speaker_tag); [|now left].
  destruct (SHOW_SPEAKER_CHANGES fl); [now right|now left].
Qed.

Lemma plain_text_empty : plain_text "" = true.
Proof. reflexivity. Qed.

(** A phrase event with a plain text, in a state whose display text is well
    prefixed: the whole iteration. *)
Lemma step_plain_phrase (fl : flags) (target_lang : string) (st : state)
    (data : gmap string pyval) (P body t : string) :
  SHOW_SPEAKER_NAMES fl = false ->
  connection_successful st = true ->
  py_eq (msg_type_of data) (PStr "phrase") = true ->
  py_eq (language_of data) (PStr target_lang) = true ->
  hash_key (phrase_id_of data) ∉ finalized_phrases st ->
  current_phrase_text st = P +:+ body ->
  P = "" \/ P = ">> " ->
  plain_text body = true ->
  text_of data = PStr t ->
  plain_text t = true ->
  let same := py_eq (phrase_id_of data) (current_phrase_id st) in
  let P' := if same then P
            else compute_prefix fl st (speaker_id_of data) (speaker_tag_of data)
                   (speaker_name_of data) in
  (P' = "" \/ P' = ">> ") /\
  renders (emitted (step fl target_lang st (Obj data)))
  = (if same then []
     else if is_not_None (current_phrase_id st)
          then [Commit (current_phrase_id st) (P +:+ body)] else [])
    ++ Update (phrase_id_of data) (P' +:+ t)
       :: (if truthy (is_final_of data)
           then [Commit (phrase_id_of data) (P' +:+ t)] else []) /\
  current_phrase_text (next_state (step fl target_lang st (Obj data)))
  = (if truthy (is_final_of data) then "" else P' +:+ t).
Proof.
  intros Hn Hc Hty Hlang Hfresh Htext HP Hbody Ht Hplain same P'.
  assert (HP' : P' = "" \/ P' = ">> ").
  { subst P'. destruct same; [exact HP|]. now apply compute_prefix_without_names. }
  split; [exact HP'|].
  rewrite step_phrase_eq, Hc by assumption.
  unfold handle_phrase, py_ne. rewrite Hlang. cbn [negb].
  rewrite bool_decide_eq_false_2 by assumption.
  fold same. subst P'. destruct same; cbn [negb].
  - unfold update_block, final_block, and_then. rewrite Ht, Htext.
    rewrite (existing_prefix_recovered P body HP Hbody). cbn [str_add].
    destruct (truthy (is_final_of data)); cbn [set_text current_phrase_text str_add].
    + rewrite (existing_prefix_recovered P t HP Hplain). split; reflexivity.
    + split; reflexivity.
  - unfold new_phrase_block, final_block, and_then. rewrite Ht, Htext.
    cbn [str_add].
    destruct (is_not_None (current_phrase_id st));
      destruct (truthy (is_final_of data));
      cbn [set_text current_phrase_text str_add];
      rewrite ?(existing_prefix_recovered _ t HP' Hplain); split; reflexivity.
Qed.

(** X12 (plain texts keep their prefix).  With speaker names off, take a
    state whose display text is the change marker or nothing followed by a
    text without colon that does not start with the marker, and a phrase
    event with such a text.  Then the event is shown with the prefix the
    phrase was opened with (or, for a new phrase, the prefix computed from
    the speaker), followed by exactly the event's text; a final event is
    committed with the very text of its update; and a phrase rolled over is
    committed with the display text held for it, unchanged. *)
Theorem X12_plain_text_keeps_prefix (fl : flags) (target_lang : string) (st : state)
    (data : gmap string pyval) (P body t : string) :
  SHOW_SPEAKER_NAMES fl = false ->
  connection_successful st = true ->
  py_eq (msg_type_of data) (PStr "phrase") = true ->
  py_eq (language_of data) (PStr target_lang) = true ->
  hash_key (phrase_id_of data) ∉ finalized_phrases st ->
  current_phrase_text st = P +:+ body ->
  P = "" \/ P = ">> " ->
  plain_text body = true ->
  text_of data = PStr t ->
  plain_text t = true ->
  let same := py_eq (phrase_id_of data) (current_phrase_id st) in
  let P' := if same then P
            else compute_prefix fl st (speaker_id_of data) (speaker_tag_of data)
                   (speaker_name_of data) in
  (P' = "" \/ P' = ">> ") /\
  renders (emitted (step fl target_lang st (Obj data)))
  = (if same then []
     else if is_not_None (current_phrase_id st)
          then [Commit (current_phrase_id st) (P +:+ body)] else [])
    ++ Update (phrase_id_of data) (P' +:+ t)
       :: (if truthy (is_final_of data)
           then [Commit (phrase_id_of data) (P' +:+ t)] else []) /\
  current_phrase_text (next_state (step fl target_lang st (Obj data)))
  = (if truthy (is_final_of data) then "" else P' +:+ t).
Proof. apply step_plain_phrase. Qed.

Lemma X12_plain_text_keeps_prefix_witness :
  renders (emitted (step shipped_flags "en"
                      (opened (PInt 1) (">> " +:+ "good") (PStr "A") PNone)
                      (Obj (phrase_data (PStr "en") (PInt 1) (PStr "good morning")
                              (PBool true) (PStr "A") PNone PNone))))
  = [] ++ [Update (PInt 1) (">> " +:+ "good morning");
           Commit (PInt 1) (">> " +:+ "good morning")].
Proof.
  apply (X12_plain_text_keeps_prefix shipped_flags "en"
           (opened (PInt 1) (">> " +:+ "good") (PStr "A") PNone)
           (phrase_data (PStr "en") (PInt 1) (PStr "good morning") (PBool true)
              (PStr "A") PNone PNone)
           ">> " "good" "good morning");
    try reflexivity.
  - apply not_elem_of_empty.
  - now right.
Defined.

Lemma plain_message_text (data : gmap string pyval) :
  plain_message (Obj data) = true ->
  py_eq (msg_type_of data) (PStr "phrase") = true ->
  exists t, text_of data = PStr t /\ plain_text t = true.
Proof.
  unfold plain_message. intros H Hty. rewrite Hty in H. simpl in H.
  destruct (text_of data) as [| | |t]; try discriminate. eauto.
Qed.

Lemma step_plain (fl : flags) (target_lang : string) (st : state) (m : message) :
  SHOW_SPEAKER_NAMES fl = false ->
  plain_message m = true ->
  well_prefixed st ->
  well_prefixed (next_state (step fl target_lang st m)) /\
  (forall e text,
     In e (emitted (step fl target_lang st m)) ->
     shown_text e = Some text -> well_prefixed_text text).
Proof.
  intros Hn Hm Hst.
  assert (Hrender : forall e text,
             In e (emitted (step fl target_lang st m)) ->
             shown_text e = Some text ->
             In e (renders (emitted (step fl target_lang st m)))).
  { intros e text Hin He. apply List.filter_In. split; [exact Hin|].
    destruct e; try discriminate He; reflexivity. }
  assert (Hquiet : next_state (step fl target_lang st m) = st \/
                   current_phrase_text (next_state (step fl target_lang st m))
                   = current_phrase_text st ->
                   renders (emitted (step fl target_lang st m)) = [] ->
                   well_prefixed (next_state (step fl target_lang st m)) /\
                   (forall e text,
                      In e (emitted (step fl target_lang st m)) ->
                      shown_text e = Some text -> well_prefixed_text text)).
  { intros Hsame Hnone. split.
    - unfold well_prefixed. destruct Hsame as [-> | ->]; exact Hst.
    - intros e text Hin He. specialize (Hrender e text Hin He).
      rewrite Hnone in Hrender. destruct Hrender. }
  destruct (takes_phrase_branch st m) eqn:Hb.
  - destruct m as [| |data]; try discriminate. simpl in Hb.
    apply andb_true_iff in Hb as [Hty Hc].
    destruct (py_eq (language_of data) (PStr target_lang)) eqn:Hlang.
    + destruct (decide (hash_key (phrase_id_of data) ∈ finalized_phrases st))
        as [Hfin|Hfresh].
      * apply Hquiet; rewrite step_phrase_eq, Hc, handle_phrase_finalized
          by assumption; auto.
      * destruct (plain_message_text data Hm Hty) as (t & Ht & Hplain).
        destruct Hst as (P & body & Htext & HP & Hbody).
        destruct (step_plain_phrase fl target_lang st data P body t Hn Hc Hty
                    Hlang Hfresh Htext HP Hbody Ht Hplain) as (HP' & Hout & Hnext).
        split.
        -- unfold well_prefixed. rewrite Hnext.
           destruct (truthy (is_final_of data)).
           ++ exists "", "". auto using plain_text_empty.
           ++ eexists _, t. eauto.
        -- intros e text Hin He. specialize (Hrender e text Hin He).
           rewrite Hout in Hrender. apply in_app_or in Hrender as [Hin'|Hin'].
           ++ destruct (py_eq _ (current_phrase_id st)); [destruct Hin'|].
              destruct (is_not_None (current_phrase_id st)); [|destruct Hin'].
              destruct Hin' as [<-|[]]. injection He as <-.
              exists P, body. auto.
           ++ destruct Hin' as [<-|Hin'].
              ** injection He as <-. eexists _, t. eauto.
              ** destruct (truthy (is_final_of data)); [|destruct Hin'].
                 destruct Hin' as [<-|[]]. injection He as <-.
                 eexists _, t. eauto.
    + apply Hquiet; rewrite step_phrase_eq, Hc, handle_phrase_other_language
        by (try assumption; unfold py_ne; now rewrite Hlang); auto.
  - assert (Hnp : match m with
                  | Obj data =>
                      py_eq (msg_type_of data) (PStr "phrase")
                      && connection_successful st = false
                  | _ => True
                  end) by (destruct m; auto).
    destruct (step_not_phrase fl target_lang st m Hnp) as (Hr & _ & Ht & _).
    apply Hquiet; auto.
Qed.

(** X13 (plain feeds are shown as sent).  With speaker names off, if every
    phrase event of the feed carries a string without colon that does not
    start with the change marker, then every line the session shows is the
    change marker or nothing followed by such a text, and so is the text it
    holds at the end: the pattern never mistakes a part of a caption for a
    prefix. *)
Theorem X13_plain_feed_is_well_prefixed (fl : flags) (target_lang : string)
    (msgs : list message) :
  SHOW_SPEAKER_NAMES fl = false ->
  forallb plain_message msgs = true ->
  well_prefixed (next_state (run fl target_lang initial_state msgs)) /\
  (forall e text,
     In e (emitted (run fl target_lang initial_state msgs)) ->
     shown_text e = Some text -> well_prefixed_text text).
Proof.
  intros Hn.
  assert (Hinit : well_prefixed initial_state)
    by (exists "", ""; auto using plain_text_empty).
  revert Hinit. generalize initial_state as st.
  induction msgs as [|m msgs IH]; intros st Hst Hall.
  - split; [exact Hst|]. intros e text [].
  - simpl in Hall. apply andb_true_iff in Hall as [Hm Hall].
    destruct (step_plain fl target_lang st m Hn Hm Hst) as [Hst1 Hout1].
    simpl. destruct (ctl (step fl target_lang st m)); cbn [next_state emitted].
    + destruct (IH _ Hst1 Hall) as [Hst2 Hout2]. split; [exact Hst2|].
      intros e text Hin He. apply in_app_or in Hin as [Hin|Hin]; eauto.
    + split; assumption.
Qed.

Lemma X13_plain_feed_is_well_prefixed_witness :
  SHOW_SPEAKER_NAMES shipped_flags = false /\
  forallb plain_message
    [status_msg true; spoken_msg "en" (PInt 1) "hello" false "A";
     spoken_msg "en" (PInt 1) "hello there" true "A"] = true /\
  well_prefixed
    (next_state (run shipped_flags "en" initial_state
       [status_msg true; spoken_msg "en" (PInt 1) "hello" false "A";
        spoken_msg "en" (PInt 1) "hello there" true "A"])).
Proof.
  split; [reflexivity|]. split; [reflexivity|].
  apply (X13_plain_feed_is_well_prefixed shipped_flags "en"
           [status_msg true; spoken_msg "en" (PInt 1) "hello" false "A";
            spoken_msg "en" (PInt 1) "hello there" true "A"]);
    reflexivity.
Defined.

(** ** Speaker memory *)

Lemma handle_phrase_keeps_memory (fl : flags) (target_lang : string) (st : state)
    (data : gmap string pyval) :
  (py_eq (language_of data) (PStr target_lang)
   && negb (bool_decide (hash_key (phrase_id_of data) ∈ finalized_phrases st))
   && py_ne (phrase_id_of data) (current_phrase_id st)) = false ->
  last_speaker_id (res_state (handle_phrase fl target_lang st data)) = last_speaker_id st /\
  last_speaker_tag (res_state (handle_phrase fl target_lang st data))
  = last_speaker_tag st.
Proof.
  unfold handle_phrase, py_ne.
  destruct (py_eq (language_of data) (PStr target_lang)); simpl; [|auto].
  destruct (bool_decide (hash_key (phrase_id_of data) ∈ finalized_phrases st));
    simpl; [auto|].
  destruct (py_eq (phrase_id_of data) (current_phrase_id st)); simpl; [|discriminate].
  intros _. unfold update_block, final_block, and_then.
  destruct (text_of data); simpl; auto.
  destruct (truthy (is_final_of data)); simpl; auto.
Qed.

(** X14 (what changes the speaker memory).  The remembered speaker changes
    only when a phrase is opened.  Updates of the open phrase, final
    commits, events that are filtered out, status, error and unknown
    messages all leave it as it is; so the speaker of the last phrase is
    still remembered after that phrase was committed. *)
Theorem X14_speaker_memory_frame (fl : flags) (target_lang : string) (st : state)
    (m : message) :
  opens_phrase target_lang st m = false ->
  last_speaker_id (next_state (step fl target_lang st m)) = last_speaker_id st /\
  last_speaker_tag (next_state (step fl target_lang st m)) = last_speaker_tag st.
Proof.
  intros Hopens.
  destruct (step_cases fl target_lang st m)
    as [(data & -> & Hs & _)|(_ & _ & _ & _ & Hi & Ht)]; [|auto].
  rewrite Hs. simpl in Hopens.
  destruct (py_eq (msg_type_of data) (PStr "phrase") && connection_successful st)
    eqn:Hb.
  - apply handle_phrase_keeps_memory. simpl in Hopens.
    now rewrite <- !andb_assoc in *.
  - assert (Hnp : match Obj data with
                  | Obj data =>
                      py_eq (msg_type_of data) (PStr "phrase")
                      && connection_successful st = false
                  | _ => True
                  end) by exact Hb.
    destruct (step_not_phrase fl target_lang st (Obj data) Hnp)
      as (_ & _ & _ & _ & Hi & Ht).
    now rewrite <- Hs, Hi, Ht.
Qed.

Lemma X14_speaker_memory_frame_witness :
  opens_phrase "en" (opened (PInt 1) ">> hi" (PStr "A") PNone)
    (spoken_msg "en" (PInt 1) "hi all" true "B") = false /\
  last_speaker_id
    (next_state (step shipped_flags "en" (opened (PInt 1) ">> hi" (PStr "A") PNone)
                   (spoken_msg "en" (PInt 1) "hi all" true "B")))
  = PStr "A".
Proof.
  split; [reflexivity|].
  apply (X14_speaker_memory_frame shipped_flags "en"
           (opened (PInt 1) ">> hi" (PStr "A") PNone)
           (spoken_msg "en" (PInt 1) "hi all" true "B")).
  reflexivity.
Defined.

(** X15 (same speaker, no marker).  A phrase opened by the speaker that is
    already remembered (same id and same tag) is shown with its text alone:
    no change marker and no name, whatever the two flags say; if a phrase
    was open, its commit is the only thing printed before. *)
Theorem X15_same_speaker_no_prefix (fl : flags) (target_lang : string) (st : state)
    (data : gmap string pyval) (t : string) :
  connection_successful st = true ->
  py_eq (msg_type_of data) (PStr "phrase") = true ->
  py_eq (language_of data) (PStr target_lang) = true ->
  hash_key (phrase_id_of data) ∉ finalized_phrases st ->
  py_ne (phrase_id_of data) (current_phrase_id st) = true ->
  text_of data = PStr t ->
  py_eq (speaker_id_of data) (last_speaker_id st) = true ->
  py_eq (speaker_tag_of data) (last_speaker_tag st) = true ->
  exists rest,
    renders (emitted (step fl target_lang st (Obj data)))
    = (if is_not_None (current_phrase_id st)
       then [Commit (current_phrase_id st) (current_phrase_text st)] else [])
      ++ Update (phrase_id_of data) t :: rest /\
    (truthy (is_final_of data) = false -> rest = []).
Proof.
  intros Hc Hty Hlang Hfresh Hne Ht Hsid Htag.
  rewrite step_phrase_eq, Hc, (handle_phrase_new fl target_lang st data) by assumption.
  unfold new_phrase_block, and_then, compute_prefix, speaker_changed, py_ne.
  rewrite Hsid, Htag, Ht. cbn [negb orb str_add].
  change ("" +:+ t) with t. unfold final_block.
  destruct (truthy (is_final_of data)); cbn [set_text current_phrase_text str_add].
  - eexists. split; [|discriminate].
    destruct (is_not_None (current_phrase_id st)); reflexivity.
  - exists []. split; [|reflexivity].
    destruct (is_not_None (current_phrase_id st)); reflexivity.
Qed.

Lemma X15_same_speaker_no_prefix_witness :
  exists rest,
    renders (emitted (step shipped_flags "en"
                        (opened (PInt 1) ">> hi" (PStr "A") PNone)
                        (spoken_msg "en" (PInt 2) "again" false "A")))
    = [Commit (PInt 1) ">> hi"] ++ Update (PInt 2) "again" :: rest.
Proof.
  destruct (X15_same_speaker_no_prefix shipped_flags "en"
              (opened (PInt 1) ">> hi" (PStr "A") PNone)
              (phrase_data (PStr "en") (PInt 2) (PStr "again") (PBool false)
                 (PStr "A") PNone PNone) "again")
    as (rest & H & _); try reflexivity.
  - apply not_elem_of_empty.
  - exists rest. exact H.
Defined.

(** ** Texts that are not strings *)



(** ** What one message can print, and which variables it can touch *)

Lemma handle_phrase_bounds (fl : flags) (target_lang : string) (st : state)
    (data : gmap string pyval) :
  (List.length (res_out (handle_phrase fl target_lang st data)) <= 3)%nat /\
  (List.length (List.filter is_update (res_out (handle_phrase fl target_lang st data)))
   <= 1)%nat /\
  (forall e,
     In e (res_out (handle_phrase fl target_lang st data)) ->
     bears (hash_key (phrase_id_of data)) e = true \/
     e = Commit (current_phrase_id st) (current_phrase_text st) /\ phrase_open st = true).
Proof.
  unfold phrase_open.
  handle_cases target_lang st data;
    (split; [lia|split; [lia|]]); intros e Hin;
    repeat (destruct Hin as [<-|Hin];
            [first [left; simpl; now rewrite bool_decide_eq_true_2 | right; auto]|]);
    destruct Hin.
Qed.

(** X17 (one message, at most three commands).  Processing one message
    prints at most three render commands, of which at most one is an
    [Update].  They all bear the id of the event, except for one [Commit]
    that bears the id in the slot and carries the buffered text as it is:
    no other phrase is ever printed. *)
Theorem X17_commands_of_one_message (fl : flags) (target_lang : string) (st : state)
    (m : message) :
  (List.length (renders (emitted (step fl target_lang st m))) <= 3)%nat /\
  (List.length (List.filter is_update (renders (emitted (step fl target_lang st m))))
   <= 1)%nat /\
  (forall data e,
     m = Obj data ->
     In e (renders (emitted (step fl target_lang st m))) ->
     bears (hash_key (phrase_id_of data)) e = true \/
     e = Commit (current_phrase_id st) (current_phrase_text st) /\ phrase_open st = true).
Proof.
  destruct (step_cases fl target_lang st m) as [(data & -> & _ & Ho)|(Ho & _)];
    rewrite Ho.
  - destruct (handle_phrase_bounds fl target_lang st data) as (H1 & H2 & H3).
    split; [exact H1|]. split; [exact H2|].
    intros data' e [= <-]. apply H3.
  - simpl. split; [lia|]. split; [lia|]. intros data e _ [].
Qed.

(** X18 (only phrase events of a confirmed session touch the buffer).  Any
    other message leaves the slot, the buffered text, the finalized set and
    the speaker memory as they are and prints no render command: status
    messages (also repeated ones), server errors, messages of other types,
    undecodable messages, and phrase events that arrive before the
    confirmation. *)
Theorem X18_buffer_frame (fl : flags) (target_lang : string) (st : state)
    (m : message) :
  takes_phrase_branch st m = false ->
  renders (emitted (step fl target_lang st m)) = [] /\
  current_phrase_id (next_state (step fl target_lang st m)) = current_phrase_id st /\
  current_phrase_text (next_state (step fl target_lang st m)) = current_phrase_text st /\
  finalized_phrases (next_state (step fl target_lang st m)) = finalized_phrases st /\
  last_speaker_id (next_state (step fl target_lang st m)) = last_speaker_id st /\
  last_speaker_tag (next_state (step fl target_lang st m)) = last_speaker_tag st.
Proof.
  intros Hb. apply step_not_phrase. destruct m; auto.
Qed.

Lemma X18_buffer_frame_witness :
  takes_phrase_branch open_partial (status_msg true) = false /\
  renders (emitted (step shipped_flags "en" open_partial (status_msg true))) = [] /\
  current_phrase_text (next_state (step shipped_flags "en" open_partial (status_msg true)))
  = current_phrase_text open_partial.
Proof.
  split; [reflexivity|].
  destruct (X18_buffer_frame shipped_flags "en" open_partial (status_msg true) eq_refl)
    as (H1 & _ & H3 & _).
  split; [exact H1|exact H3].
Defined.

(** ** Size of the finalized set *)

Lemma size_add_fresh (x : key) (S : gset key) :
  x ∉ S -> size ({[ x ]} ∪ S) = Datatypes.S (size S).
Proof.
  intros Hx. rewrite size_union by set_solver. now rewrite size_singleton.
Qed.

Lemma handle_phrase_size (fl : flags) (target_lang : string) (st : state)
    (data : gmap string pyval) :
  open_not_finalized st ->
  size (finalized_phrases (res_state (handle_phrase fl target_lang st data)))
  = (size (finalized_phrases st)
     + List.length (List.filter is_commit
                      (res_out (handle_phrase fl target_lang st data))))%nat.
Proof.
  unfold open_not_finalized, phrase_open. intros Hinv.
  handle_cases target_lang st data; try (simpl; lia);
    try (apply py_eq_false_hash_key in Hid);
    rewrite ?size_add_fresh; try lia; try assumption; auto; set_solver.
Qed.

Lemma filter_commit_renders (out : list effect) :
  List.filter is_commit (renders out) = List.filter is_commit out.
Proof.
  unfold renders. induction out as [|e out IH]; [reflexivity|].
  destruct e; simpl; now rewrite IH.
Qed.

Lemma step_size (fl : flags) (target_lang : string) (st : state) (m : message) :
  open_not_finalized st ->
  size (finalized_phrases (next_state (step fl target_lang st m)))
  = (size (finalized_phrases st)
     + List.length (List.filter is_commit (emitted (step fl target_lang st m))))%nat.
Proof.
  intros Hinv. rewrite <- filter_commit_renders.
  destruct (step_cases fl target_lang st m)
    as [(data & -> & Hs & Ho)|(Ho & _ & _ & Hf & _)]; rewrite Ho.
  - rewrite Hs. now apply handle_phrase_size.
  - rewrite Hf. simpl. lia.
Qed.

(** X19 (size of the finalized set).  After any feed, [finalized_phrases]
    has exactly as many elements as [Commit]s were printed: every commit
    adds one id that was not yet in the set, and nothing else adds one. *)
Theorem X19_finalized_size_is_commit_count (fl : flags) (target_lang : string)
    (msgs : list message) :
  size (finalized_phrases (next_state (run fl target_lang initial_state msgs)))
  = List.length (List.filter is_commit
                   (emitted (run fl target_lang initial_state msgs))).
Proof.
  assert (H : forall msgs st,
             open_not_finalized st ->
             size (finalized_phrases (next_state (run fl target_lang st msgs)))
             = (size (finalized_phrases st)
                + List.length (List.filter is_commit
                                 (emitted (run fl target_lang st msgs))))%nat).
  { clear msgs. induction msgs as [|m msgs IH]; intros st Hinv; simpl; [lia|].
    pose proof (step_size fl target_lang st m Hinv) as Hstep.
    pose proof (step_inv fl target_lang st m Hinv) as Hinv1.
    destruct (ctl (step fl target_lang st m)); cbn [next_state emitted];
      [|exact Hstep].
    rewrite (IH _ Hinv1), Hstep, List.filter_app, length_app. lia. }
  rewrite (H msgs initial_state initial_open_not_finalized).
  change (finalized_phrases initial_state) with (∅ : gset key).
  now rewrite size_empty.
Qed.
